(** * Collision detection and magnetic repulsion for canvas nodes

    A shallow embedding of the collision module of the canvas
    (`getDefaultNodeSize`, `getNodeBounds`, `calculateAdaptivePadding`,
    `checkCollision`, `calculateRepulsionForce`, `findValidPosition`).

    Numbers.  The source computes on JavaScript numbers.  The embedding
    reads them as real numbers ([R]): `+ - * /`, `<`, `Math.min`,
    `Math.max`, `Math.sqrt`, `Math.cos`, `Math.sin`, `Math.floor` and
    `Math.PI` are the operations of the Standard Library's reals.  Rounding,
    `NaN` and overflow are outside the model; the one infinite value the
    source produces (`distance: Infinity`) is kept as a constructor of
    [JsNumber].

    Domain.  The numeric model takes style dimensions that are numbers and
    node types that do not name a member every object inherits; what the
    source resolves outside of that (a string for a style dimension, the
    type `constructor`) is in [resolveWidthJs] and [resolveHeightJs], with
    which the numeric model agrees on its domain.

    Effects.  The only effect of the module is the draw of `Math.random()`
    in [calculateRepulsionForce]; it is modelled by explicit state passing
    over a stream of draws ([Rng]).  The unbounded `for` loop over radii in
    [findValidPosition] is modelled with fuel. *)

From Stdlib Require Import Reals Lra Lia List String Bool ZArith.
From Stdlib Require Import Ascii NArith Sorted Permutation.
Import ListNotations.
Open Scope R_scope.

(** ** JavaScript values *)

(** Values a node's `data.width` / `data.height` can hold; the source
    tests them with `typeof ... === 'number'`. *)
Inductive JsVal : Type :=
| JUndefined
| JNull
| JBool (b : bool)
| JNumber (r : R)
| JString (s : string).

(** A number that may be `Infinity`. *)
Inductive JsNumber : Type :=
| Finite (r : R)
| Infinity.

(** Truthiness of a number: every number but zero. *)
Definition truthyNum (r : R) : bool :=
  if Req_dec_T r 0 then false else true.

(** `v && typeof v === 'number' ? v : null` *)
Definition numberOrNull (v : JsVal) : option R :=
  match v with
  | JNumber r => if truthyNum r then Some r else None
  | _ => None
  end.

(** A truthy optional number, as the left operand of `||`. *)
Definition truthyOpt (o : option R) : option R :=
  match o with
  | Some r => if truthyNum r then Some r else None
  | None => None
  end.

(** `a || b` where [a] may be absent and [b] is a number. *)
Definition orElse (a : option R) (b : R) : R :=
  match truthyOpt a with
  | Some r => r
  | None => b
  end.

(** Strict comparisons as booleans. *)
Definition Rltb (a b : R) : bool := if Rlt_dec a b then true else false.
Definition Rgtb (a b : R) : bool := if Rgt_dec a b then true else false.
Definition Rleb (a b : R) : bool := if Rle_dec a b then true else false.
Definition Rgeb (a b : R) : bool := if Rge_dec a b then true else false.

(** ** Data model *)

Record Position : Type := mkPosition { pos_x : R; pos_y : R }.

Record Size : Type := mkSize { width : R; height : R }.

(** `node.style` in the numeric model: the dimensions are numbers when
    present.  The source puts no type test on them; style dimensions of any
    type are in [JsStyle] and [resolveWidthJs] below, which this model
    agrees with on numbers ([numeric_model_agrees]). *)
Record Style : Type := mkStyle {
  style_width : option R;
  style_height : option R
}.

Record NodeData : Type := mkNodeData {
  data_width : JsVal;
  data_height : JsVal
}.

(** `node.parentNode`: compared with `!==`, so `undefined`, `null` and each
    id are pairwise different. *)
Inductive ParentRef : Type :=
| PUndefined
| PNull
| PId (s : string).

Record Node : Type := mkNode {
  nodeId : string;
  nodeType : string;
  position : Position;
  style : option Style;
  data : option NodeData;
  parentNode : ParentRef
}.

Record Bounds : Type := mkBounds {
  b_x : R;
  b_y : R;
  b_width : R;
  b_height : R;
  b_centerX : R;
  b_centerY : R;
  b_right : R;
  b_bottom : R
}.

Record CollisionResult : Type := mkCollision {
  colliding : bool;
  overlapX : R;
  overlapY : R;
  distance : JsNumber
}.

Record ForceResult : Type := mkForce {
  deltaX : R;
  deltaY : R;
  strength : R
}.

(** The district handed to [findValidPosition]: only its style is read. *)
Record District : Type := mkDistrict { district_style : option Style }.

Definition ParentRef_eq_dec (a b : ParentRef) : {a = b} + {a <> b}.
Proof. decide equality. apply string_dec. Defined.

(** `{ ...node, position: p }` *)
Definition withPosition (n : Node) (p : Position) : Node :=
  mkNode (nodeId n) (nodeType n) p (style n) (data n) (parentNode n).

(** ** Default node sizes *)

Definition DEFAULT_NODE_SIZES : list (string * Size) :=
  [ ("agent", mkSize 200 120);
    ("contact", mkSize 120 140);
    ("chess", mkSize 360 360);
    ("app", mkSize 400 300);
    ("metric", mkSize 160 120);
    ("graph", mkSize 500 400);
    ("winamp", mkSize 307 400);
    ("butterchurn", mkSize 400 300);
    ("pomodoro", mkSize 228 228);
    ("flipclock", mkSize 300 342);
    ("shader", mkSize 200 150);
    ("matrix", mkSize 500 500);
    ("portal", mkSize 150 100);
    ("note", mkSize 200 150);
    ("task", mkSize 200 100);
    ("stack", mkSize 200 150);
    ("device", mkSize 200 150);
    ("synth", mkSize 300 200);
    ("drummachine", mkSize 400 300);
    ("sticker", mkSize 200 200);
    ("stickerpack", mkSize 300 200);
    ("contactsStack", mkSize 280 200);
    ("action", mkSize 80 80);
    ("guitartuna", mkSize 380 200);
    ("audiointerface", mkSize 360 220);
    ("templatebrowser", mkSize 400 500);
    ("projecthub", mkSize 320 280);
    ("temporalinbox", mkSize 280 320);
    ("kanban", mkSize 600 400);
    ("gtdinbox", mkSize 480 420);
    ("mindmap", mkSize 600 400);
    ("timeline", mkSize 700 400);
    ("sketch", mkSize 600 500);
    ("photoeditor", mkSize 560 440);
    ("audioeditor", mkSize 600 380);
    ("publisher", mkSize 650 600);
    ("default", mkSize 200 150) ]%string.

(** `DEFAULT_NODE_SIZES.default` *)
Definition DEFAULT_SIZE : Size := mkSize 200 150.

(** Lookup `table[key]` among the keys the table lists.  A key that names a
    member every object inherits (`constructor`, `toString`, ...) finds that
    member in the source, not a size: see [inheritedKeys] and [tableEntry]
    below.  The numeric model is the source on every other type
    ([plainType]). *)
Fixpoint lookupSize (table : list (string * Size)) (key : string)
  : option Size :=
  match table with
  | [] => None
  | (k, s) :: rest => if string_dec k key then Some s else lookupSize rest key
  end.

Definition getDefaultNodeSize (ty : string) : Size :=
  match lookupSize DEFAULT_NODE_SIZES ty with
  | Some s => s
  | None => DEFAULT_SIZE
  end.

(** ** Bounds *)

(** `node.style?.width` and `node.style?.height` *)
Definition styleWidth (s : option Style) : option R :=
  match s with Some st => style_width st | None => None end.
Definition styleHeight (s : option Style) : option R :=
  match s with Some st => style_height st | None => None end.

(** `node.data?.width && typeof node.data.width === 'number' ? ... : null` *)
Definition dataWidth (d : option NodeData) : option R :=
  match d with Some dt => numberOrNull (data_width dt) | None => None end.
Definition dataHeight (d : option NodeData) : option R :=
  match d with Some dt => numberOrNull (data_height dt) | None => None end.

Definition resolveWidth (n : Node) : R :=
  orElse (styleWidth (style n))
         (orElse (dataWidth (data n))
                 (width (getDefaultNodeSize (nodeType n)))).

Definition resolveHeight (n : Node) : R :=
  orElse (styleHeight (style n))
         (orElse (dataHeight (data n))
                 (height (getDefaultNodeSize (nodeType n)))).

Definition getNodeBounds (n : Node) : Bounds :=
  let w := resolveWidth n in
  let h := resolveHeight n in
  let x := pos_x (position n) in
  let y := pos_y (position n) in
  mkBounds x y w h (x + w / 2) (y + h / 2) (x + w) (y + h).

(** ** Adaptive padding *)

Definition calculateAdaptivePadding (node1 node2 : Node) : R :=
  let bounds1 := getNodeBounds node1 in
  let bounds2 := getNodeBounds node2 in
  let avgSize :=
    (b_width bounds1 + b_height bounds1 + b_width bounds2 + b_height bounds2)
    / 4 in
  let adaptivePadding := avgSize * 0.1 in
  let totalPadding := 20 + adaptivePadding in
  Rmax 20 (Rmin 100 totalPadding).

(** ** Collision check *)

(** The four edges of a rectangle grown by [pad] on every side. *)
Record Expanded : Type := mkExpanded {
  e_x : R;
  e_y : R;
  e_right : R;
  e_bottom : R
}.

Definition expandBy (b : Bounds) (pad : R) : Expanded :=
  mkExpanded (b_x b - pad) (b_y b - pad) (b_right b + pad) (b_bottom b + pad).

(** The AABB test: `!(r1 < x2 || x1 > r2 || b1 < y2 || y1 > b2)`. *)
Definition aabbOverlap (e1 e2 : Expanded) : bool :=
  negb (Rltb (e_right e1) (e_x e2)
        || Rgtb (e_x e1) (e_right e2)
        || Rltb (e_bottom e1) (e_y e2)
        || Rgtb (e_y e1) (e_bottom e2)).

(** Centre-to-centre distance. *)
Definition centerDistance (bounds1 bounds2 : Bounds) : R :=
  let dx := b_centerX bounds1 - b_centerX bounds2 in
  let dy := b_centerY bounds1 - b_centerY bounds2 in
  sqrt (dx * dx + dy * dy).

Definition checkCollision (node1 node2 : Node) (padding : R)
  : CollisionResult :=
  if ParentRef_eq_dec (parentNode node1) (parentNode node2) then
    let bounds1 := getNodeBounds node1 in
    let bounds2 := getNodeBounds node2 in
    let expanded1 := expandBy bounds1 (padding / 2) in
    let expanded2 := expandBy bounds2 (padding / 2) in
    if aabbOverlap expanded1 expanded2 then
      let overlapX := Rmin (e_right expanded1 - e_x expanded2)
                           (e_right expanded2 - e_x expanded1) in
      let overlapY := Rmin (e_bottom expanded1 - e_y expanded2)
                           (e_bottom expanded2 - e_y expanded1) in
      mkCollision true overlapX overlapY
                  (Finite (centerDistance bounds1 bounds2))
    else
      mkCollision false 0 0 (Finite (centerDistance bounds1 bounds2))
  else
    mkCollision false 0 0 Infinity.

(** ** Repulsion force *)

(** The state of `Math.random()`: the stream of the draws to come, each
    in `[0, 1)`. *)
Definition Rng : Type := nat -> R.

(** `Math.random()`: hands out the next draw and advances the stream. *)
Definition Math_random (g : Rng) : R * Rng :=
  (g 0%nat, fun n => g (S n)).

Definition noForce : ForceResult := mkForce 0 0 0.

(** `Math.max(a, b, c, d)` *)
Definition Rmax4 (a b c d : R) : R := Rmax (Rmax (Rmax a b) c) d.

(** The third parameter of the source (`allNodes`) is never read and is
    left out.  A zero `maxDimension` (possible with negative sizes only)
    makes `minOverlap / maxDimension` infinite in the source and 0 here; it
    feeds `strength` alone. *)
Definition calculateRepulsionForce (g : Rng) (draggedNode otherNode : Node)
  : ForceResult * Rng :=
  if ParentRef_eq_dec (parentNode draggedNode) (parentNode otherNode) then
    let bounds1 := getNodeBounds draggedNode in
    let bounds2 := getNodeBounds otherNode in
    let padding := calculateAdaptivePadding draggedNode otherNode in
    let expanded1 := expandBy bounds1 padding in
    let width1 := b_width bounds1 + padding * 2 in
    let height1 := b_height bounds1 + padding * 2 in
    let expanded2 := expandBy bounds2 padding in
    let width2 := b_width bounds2 + padding * 2 in
    let height2 := b_height bounds2 + padding * 2 in
    if aabbOverlap expanded1 expanded2 then
      let overlapX := Rmin (e_right expanded1 - e_x expanded2)
                           (e_right expanded2 - e_x expanded1) in
      let overlapY := Rmin (e_bottom expanded1 - e_y expanded2)
                           (e_bottom expanded2 - e_y expanded1) in
      let dx := b_centerX bounds1 - b_centerX bounds2 in
      let dy := b_centerY bounds1 - b_centerY bounds2 in
      let distance := sqrt (dx * dx + dy * dy) in
      if Req_dec_T distance 0 then
        let (u, g') := Math_random g in
        let angle := u * PI * 2 in
        (mkForce (cos angle * 30) (sin angle * 30) 1, g')
      else
        let minOverlap := Rmin overlapX overlapY in
        let maxDimension := Rmax4 width1 height1 width2 height2 in
        let normalizedOverlap := Rmin (minOverlap / maxDimension) 1 in
        let strength :=
          normalizedOverlap * normalizedOverlap
          * (3 - 2 * normalizedOverlap) in
        let forceMagnitude := minOverlap * 0.8 in
        let normalizedDx := dx / distance in
        let normalizedDy := dy / distance in
        (mkForce (normalizedDx * forceMagnitude)
                 (normalizedDy * forceMagnitude)
                 strength, g)
    else (noForce, g)
  else (noForce, g).

(** ** Placement search *)

(** The filter on `allNodes`: another node, not a district, same parent. *)
Definition isOtherNode (node n : Node) : bool :=
  negb (String.eqb (nodeId n) (nodeId node))
  && negb (String.eqb (nodeType n) "district")
  && (if ParentRef_eq_dec (parentNode n) (parentNode node)
      then true else false).

(** `district.style?.width || 1200` and `district.style?.height || 1000` *)
Definition districtWidth (d : District) : R :=
  orElse (styleWidth (district_style d)) 1200.
Definition districtHeight (d : District) : R :=
  orElse (styleHeight (district_style d)) 1000.

Definition isWithinDistrictBounds (district : option District) (padding : R)
    (pos : Position) (nodeBounds : Bounds) : bool :=
  match district with
  | None => true
  | Some d =>
      Rgeb (pos_x pos) padding
      && Rgeb (pos_y pos) padding
      && Rleb (pos_x pos + b_width nodeBounds) (districtWidth d - padding)
      && Rleb (pos_y pos + b_height nodeBounds) (districtHeight d - padding)
  end.

(** One turn of the loop over `otherNodes`: the pair's adaptive padding,
    then the collision test with it. *)
Definition collidesWith (testNode otherNode : Node) : bool :=
  colliding (checkCollision testNode otherNode
               (calculateAdaptivePadding testNode otherNode)).

(** The loop over `otherNodes` with its `break`: is there a collision? *)
Definition collidesAny (testNode : Node) (otherNodes : list Node) : bool :=
  existsb (collidesWith testNode) otherNodes.

Definition maxRadius : R := 2000.
Definition maxIterations : Z := 100.
Definition angleStep : R := PI / 8.

(** `Math.floor((2 * Math.PI) / angleStep)` *)
Definition positionsPerRadius : Z := Int_part ((2 * PI) / angleStep).

(** The values of `i` the inner loop runs through:
    `i = 0; i < positionsPerRadius && i < maxIterations; i++`. *)
Definition ringIndices : list nat :=
  seq 0 (Z.to_nat (Z.min positionsPerRadius maxIterations)).

(** The final clamp into the district. *)
Definition clampToDistrict (d : District) (padding : R)
    (preferredPosition : Position) (nodeBounds : Bounds) : Position :=
  mkPosition
    (Rmax padding
          (Rmin (pos_x preferredPosition)
                (districtWidth d - b_width nodeBounds - padding)))
    (Rmax padding
          (Rmin (pos_y preferredPosition)
                (districtHeight d - b_height nodeBounds - padding))).

(** How the loop over radii ends. *)
Inductive SpiralResult : Type :=
| Found (p : Position)
| Exhausted
| OutOfFuel.

Section Spiral.

Variables (node : Node) (otherNodes : list Node).
Variables (preferredPosition : Position) (district : option District).
Variables (padding : R) (nodeBounds : Bounds) (stepSize : R).

(** The candidate of index [i] on the ring of radius [radius]. *)
Definition candidate (radius : R) (i : nat) : Position :=
  let angle := INR i * angleStep + (radius / stepSize) * 0.5 in
  mkPosition (pos_x preferredPosition + cos angle * radius)
             (pos_y preferredPosition + sin angle * radius).

(** Is a candidate accepted: inside the district and free of
    collisions. *)
Definition validCandidate (testPos : Position) : bool :=
  isWithinDistrictBounds district padding testPos nodeBounds
  && negb (collidesAny (withPosition node testPos) otherNodes).

(** The inner loop, over the indices still to try. *)
Fixpoint probeRing (radius : R) (indices : list nat) : option Position :=
  match indices with
  | [] => None
  | i :: rest =>
      let testPos := candidate radius i in
      if negb (isWithinDistrictBounds district padding testPos nodeBounds)
      then probeRing radius rest
      else if collidesAny (withPosition node testPos) otherNodes
           then probeRing radius rest
           else Some testPos
  end.

(** The outer loop `for (radius = stepSize; radius < maxRadius;
    radius += stepSize)`, from the current [radius] on. *)
Fixpoint spiral (fuel : nat) (radius : R) : SpiralResult :=
  if Rlt_dec radius maxRadius then
    match fuel with
    | O => OutOfFuel
    | S fuel' =>
        match probeRing radius ringIndices with
        | Some p => Found p
        | None => spiral fuel' (radius + stepSize)
        end
    end
  else Exhausted.

End Spiral.

(** [None] only when the fuel runs out before the loop over radii ends.
    `minPadding` of the source is written and never read; it is left out. *)
Definition findValidPosition (fuel : nat) (node : Node) (allNodes : list Node)
    (preferredPosition : Position) (district : option District) (padding : R)
  : option Position :=
  let otherNodes := filter (isOtherNode node) allNodes in
  let testNode := withPosition node preferredPosition in
  let nodeBounds := getNodeBounds testNode in
  let hasCollision :=
    if negb (isWithinDistrictBounds district padding preferredPosition
               nodeBounds)
    then true
    else collidesAny testNode otherNodes in
  if negb hasCollision then Some preferredPosition
  else
    let stepSize := Rmax (b_width nodeBounds) (b_height nodeBounds) * 0.1 in
    match spiral node otherNodes preferredPosition district padding
                 nodeBounds stepSize fuel stepSize with
    | Found p => Some p
    | OutOfFuel => None
    | Exhausted =>
        match district with
        | Some d =>
            Some (clampToDistrict d padding preferredPosition nodeBounds)
        | None => Some preferredPosition
        end
    end.

(** ** Size resolution on values of any type

    The first lines of `getNodeBounds` with nothing assumed about the type of
    `node.style.width`, `node.style.height` and of the node's `type`: what
    the source resolves as `width` and `height` before any arithmetic. *)

(** The names of the members a plain object inherits from
    `Object.prototype`. *)
Definition inheritedKeys : list string :=
  [ "constructor"; "__defineGetter__"; "__defineSetter__"; "hasOwnProperty";
    "__lookupGetter__"; "__lookupSetter__"; "isPrototypeOf";
    "propertyIsEnumerable"; "toString"; "valueOf"; "__proto__";
    "toLocaleString" ]%string.

(** A type that is not the name of an inherited member. *)
Definition plainType (ty : string) : Prop := ~ In ty inheritedKeys.

(** What `DEFAULT_NODE_SIZES[nodeType] || DEFAULT_NODE_SIZES.default` is:
    a size of the table, or an inherited member (a function or an object,
    truthy, without `width` or `height`). *)
Inductive TableEntry : Type :=
| SizeEntry (s : Size)
| InheritedMember.

Definition tableEntry (ty : string) : TableEntry :=
  match lookupSize DEFAULT_NODE_SIZES ty with
  | Some s => SizeEntry s
  | None =>
      if in_dec string_dec ty inheritedKeys then InheritedMember
      else SizeEntry DEFAULT_SIZE
  end.

(** `defaultSize.width` and `defaultSize.height` *)
Definition defaultWidthJs (ty : string) : JsVal :=
  match tableEntry ty with
  | SizeEntry s => JNumber (width s)
  | InheritedMember => JUndefined
  end.
Definition defaultHeightJs (ty : string) : JsVal :=
  match tableEntry ty with
  | SizeEntry s => JNumber (height s)
  | InheritedMember => JUndefined
  end.

(** Truthiness of a value. *)
Definition truthy (v : JsVal) : bool :=
  match v with
  | JUndefined => false
  | JNull => false
  | JBool b => b
  | JNumber r => truthyNum r
  | JString s => negb (String.eqb s "")
  end.

(** `a || b` *)
Definition jsOr (a b : JsVal) : JsVal := if truthy a then a else b.

(** `v && typeof v === 'number' ? v : null` as a value. *)
Definition numberOrNullJs (v : JsVal) : JsVal :=
  match v with
  | JNumber r => if truthyNum r then v else JNull
  | _ => JNull
  end.

(** `node.style` with dimensions of any type. *)
Record JsStyle : Type := mkJsStyle {
  js_width : JsVal;
  js_height : JsVal
}.

(** What `getNodeBounds` reads of a node to resolve its size. *)
Record SizedNode : Type := mkSizedNode {
  sn_type : string;
  sn_style : option JsStyle;
  sn_data : option NodeData
}.

(** `node.style?.width`, `node.style?.height`, `node.data?.width` and
    `node.data?.height` *)
Definition styleWidthJs (n : SizedNode) : JsVal :=
  match sn_style n with Some st => js_width st | None => JUndefined end.
Definition styleHeightJs (n : SizedNode) : JsVal :=
  match sn_style n with Some st => js_height st | None => JUndefined end.
Definition dataWidthJs (n : SizedNode) : JsVal :=
  match sn_data n with Some d => data_width d | None => JUndefined end.
Definition dataHeightJs (n : SizedNode) : JsVal :=
  match sn_data n with Some d => data_height d | None => JUndefined end.

(** The `width` and the `height` of `getNodeBounds`. *)
Definition resolveWidthJs (n : SizedNode) : JsVal :=
  jsOr (styleWidthJs n)
       (jsOr (numberOrNullJs (dataWidthJs n)) (defaultWidthJs (sn_type n))).
Definition resolveHeightJs (n : SizedNode) : JsVal :=
  jsOr (styleHeightJs n)
       (jsOr (numberOrNullJs (dataHeightJs n)) (defaultHeightJs (sn_type n))).

(** A node of the numeric model as a [SizedNode]. *)
Definition optionalNumber (o : option R) : JsVal :=
  match o with Some r => JNumber r | None => JUndefined end.
Definition sizedOf (n : Node) : SizedNode :=
  mkSizedNode (nodeType n)
    (match style n with
     | Some st => Some (mkJsStyle (optionalNumber (style_width st))
                                  (optionalNumber (style_height st)))
     | None => None
     end)
    (data n).

(** A value that is a number and not negative. *)
Definition nonNegativeNumber (v : JsVal) : Prop :=
  exists r, v = JNumber r /\ 0 <= r.

(** Every explicit dimension that the resolution can pick (a truthy style
    dimension, a numeric data dimension) is a number and not negative. *)
Definition noNegativeSizeJs (n : SizedNode) : Prop :=
  (truthy (styleWidthJs n) = true -> nonNegativeNumber (styleWidthJs n)) /\
  (truthy (styleHeightJs n) = true -> nonNegativeNumber (styleHeightJs n)) /\
  (forall w, dataWidthJs n = JNumber w -> 0 <= w) /\
  (forall h, dataHeightJs n = JNumber h -> 0 <= h).

(** A node with a numeric style width and a string for style height, and
    nodes named after an inherited member. *)
Definition halfStyledNode : SizedNode :=
  mkSizedNode "note" (Some (mkJsStyle (JNumber 300) (JString "tall"))) None.
Definition constructorNode : SizedNode :=
  mkSizedNode "constructor" None None.

(** ** Vocabulary of the statements *)

(** A note at the root of the canvas, without explicit size: 200 x 150 by
    its type. *)
Definition rootNote (name : string) (x y : R) : Node :=
  mkNode name "note" (mkPosition x y) None None PUndefined.

(** A node with an explicit 200 x 150 style size. *)
Definition sized200x150 (name : string) (x y : R) (parent : ParentRef)
  : Node :=
  mkNode name "note" (mkPosition x y)
         (Some (mkStyle (Some 200) (Some 150))) None parent.

(** The rectangle [checkCollision] tests: the bounds grown by half the
    padding. *)
Definition padded (n : Node) (padding : R) : Expanded :=
  expandBy (getNodeBounds n) (padding / 2).

(** Some edge of one rectangle lies exactly on the facing edge of the
    other. *)
Definition touchingX (e1 e2 : Expanded) : Prop :=
  e_right e1 = e_x e2 \/ e_right e2 = e_x e1.
Definition touchingY (e1 e2 : Expanded) : Prop :=
  e_bottom e1 = e_y e2 \/ e_bottom e2 = e_y e1.

(** No strict gap on any side: the closed rectangles meet. *)
Definition rectanglesMeet (e1 e2 : Expanded) : Prop :=
  e_x e2 <= e_right e1 /\ e_x e1 <= e_right e2 /\
  e_y e2 <= e_bottom e1 /\ e_y e1 <= e_bottom e2.

(** A note whose `data` carries a numeric width and a string for height. *)
Definition halfSizedNote : Node :=
  mkNode "n" "note" (mkPosition 0 0) None
         (Some (mkNodeData (JNumber 300) (JString "tall"))) PUndefined.

(** The two entities of scenario B. *)
Definition E1 : Node := sized200x150 "E1" 0 0 PUndefined.
Definition E2 : Node := sized200x150 "E2" 500 500 PUndefined.

(** The repulsion zone of [n] in the pair (dragged, other): its bounds grown
    by the pair's full adaptive padding. *)
Definition repulsionZone (draggedNode otherNode n : Node) : Expanded :=
  expandBy (getNodeBounds n) (calculateAdaptivePadding draggedNode otherNode).

(** `isOverlapping` of [calculateRepulsionForce]. *)
Definition zonesOverlap (draggedNode otherNode : Node) : bool :=
  aabbOverlap (repulsionZone draggedNode otherNode draggedNode)
              (repulsionZone draggedNode otherNode otherNode).

(** The vector from the centre of [a] to the centre of [b]. *)
Definition centerVecX (a b : Node) : R :=
  b_centerX (getNodeBounds b) - b_centerX (getNodeBounds a).
Definition centerVecY (a b : Node) : R :=
  b_centerY (getNodeBounds b) - b_centerY (getNodeBounds a).

(** The two centres are not the same point. *)
Definition centersDiffer (a b : Node) : Prop :=
  centerVecX a b <> 0 \/ centerVecY a b <> 0.

(** `Math.min(overlapX, overlapY)` on the two repulsion zones. *)
Definition zoneMinOverlap (draggedNode otherNode : Node) : R :=
  let expanded1 := repulsionZone draggedNode otherNode draggedNode in
  let expanded2 := repulsionZone draggedNode otherNode otherNode in
  Rmin (Rmin (e_right expanded1 - e_x expanded2)
             (e_right expanded2 - e_x expanded1))
       (Rmin (e_bottom expanded1 - e_y expanded2)
             (e_bottom expanded2 - e_y expanded1)).

(** Dot product of the returned delta with a vector. *)
Definition dot (f : ForceResult) (vx vy : R) : R :=
  deltaX f * vx + deltaY f * vy.

(** A dragged note and a neighbour 100 to its right. *)
Definition draggedNote : Node := rootNote "dragged" 0 0.
Definition otherNote : Node := rootNote "other" 100 0.

(** Two notes at the same place: their centres coincide. *)
Definition stackedA : Node := rootNote "a" 0 0.
Definition stackedB : Node := rootNote "b" 0 0.

(** A state of `Math.random()` whose next draws are 0, then 0.5. *)
Definition drawsZeroHalf : Rng :=
  fun n => match n with O => 0 | S _ => 0.5 end.

(** Where the search ends when nothing else is found. *)
Definition fallbackPosition (district : option District) (padding : R)
    (preferredPosition : Position) (nodeBounds : Bounds) : Position :=
  match district with
  | Some d => clampToDistrict d padding preferredPosition nodeBounds
  | None => preferredPosition
  end.

(** No collision with any peer kept by the filter, each tested with the
    adaptive padding of its pair. *)
Definition collisionFree (node : Node) (allNodes : list Node) (p : Position)
  : Prop :=
  forall o, In o (filter (isOtherNode node) allNodes) ->
    colliding (checkCollision (withPosition node p) o
                 (calculateAdaptivePadding (withPosition node p) o)) = false.

(** The step of the spiral: a tenth of the larger dimension. *)
Definition stepSizeOf (node : Node) : R :=
  Rmax (b_width (getNodeBounds node)) (b_height (getNodeBounds node)) * 0.1.

(** A district without a style. *)
Definition plainDistrict : District := mkDistrict None.

(** ** Vocabulary of the further properties *)

(** The node moved by the offset (dx, dy). *)
Definition translate (n : Node) (dx dy : R) : Node :=
  withPosition n (mkPosition (pos_x (position n) + dx)
                             (pos_y (position n) + dy)).

(** `maxDimension` of [calculateRepulsionForce]: the largest side of the
    two repulsion zones. *)
Definition zoneMaxDimension (draggedNode otherNode : Node) : R :=
  let padding := calculateAdaptivePadding draggedNode otherNode in
  Rmax4 (b_width (getNodeBounds draggedNode) + padding * 2)
        (b_height (getNodeBounds draggedNode) + padding * 2)
        (b_width (getNodeBounds otherNode) + padding * 2)
        (b_height (getNodeBounds otherNode) + padding * 2).

(** The smoothstep curve of [calculateRepulsionForce]. *)
Definition smoothstep (t : R) : R := t * t * (3 - 2 * t).

(** Squared length of the returned delta. *)
Definition sqLength (f : ForceResult) : R :=
  deltaX f * deltaX f + deltaY f * deltaY f.

(** Squared distance between two positions. *)
Definition sqDist (p q : Position) : R :=
  (pos_x p - pos_x q) * (pos_x p - pos_x q)
  + (pos_y p - pos_y q) * (pos_y p - pos_y q).

(** A node the filter of [findValidPosition] drops: the node itself, a
    district, or a node of another parent. *)
Definition notAPeer (node n : Node) : Prop :=
  nodeId n = nodeId node \/ nodeType n = "district"%string \/
  parentNode n <> parentNode node.

(** A node with an explicit style size. *)
Definition styledNode (name : string) (w h x y : R) : Node :=
  mkNode name "note" (mkPosition x y) (Some (mkStyle (Some w) (Some h)))
         None PUndefined.

(** A district with an explicit style size. *)
Definition sizedDistrict (w h : R) : District :=
  mkDistrict (Some (mkStyle (Some w) (Some h))).


(** * Tagging utilities

    A shallow embedding of the tagging module (`addTagToNode`,
    `removeTagFromNode`, `getNodesByTag`, `getAllTags`, `countNodesByTag`,
    `getTagColor`, `isValidTagName`, `normalizeTagName`).  Strings are
    sequences of code units below 256, so that `charCodeAt` is the code of a
    character; tags are strings. *)

(** `node.data` as tagging reads it: the `tags` array, when there is one,
    and the other fields, which the spread carries over. *)
Record TagData : Type := mkTagData {
  d_tags : option (list string);
  d_others : list (string * JsVal)
}.

(** A node as tagging reads it: its `data`, when there is one, and the
    other fields. *)
Record TagNode : Type := mkTagNode {
  tn_others : list (string * JsVal);
  tn_data : option TagData
}.

(** `node.data?.tags || []` *)
Definition tagsOf (node : TagNode) : list string :=
  match tn_data node with
  | Some d => match d_tags d with Some ts => ts | None => [] end
  | None => []
  end.

(** The fields `...node.data` spreads, `tags` apart. *)
Definition dataOthers (node : TagNode) : list (string * JsVal) :=
  match tn_data node with
  | Some d => d_others d
  | None => []
  end.

(** `array.includes(tag)` *)
Definition includes (l : list string) (tag : string) : bool :=
  existsb (String.eqb tag) l.

Definition addTagToNode (node : TagNode) (tag : string) : TagNode :=
  let currentTags := tagsOf node in
  if includes currentTags tag then node
  else mkTagNode (tn_others node)
                 (Some (mkTagData (Some (currentTags ++ [tag]))
                                  (dataOthers node))).

Definition removeTagFromNode (node : TagNode) (tag : string) : TagNode :=
  let currentTags := tagsOf node in
  mkTagNode (tn_others node)
            (Some (mkTagData
                     (Some (filter (fun t => negb (String.eqb t tag))
                                   currentTags))
                     (dataOthers node))).

Definition getNodesByTag (nodes : list TagNode) (tag : string)
  : list TagNode :=
  filter (fun node => includes (tagsOf node) tag) nodes.

Definition countNodesByTag (nodes : list TagNode) (tag : string) : nat :=
  List.length (getNodesByTag nodes tag).

(** `tagSet.add(tag)` on a set kept in insertion order. *)
Definition setAdd (s : list string) (tag : string) : list string :=
  if includes s tag then s else s ++ [tag].

(** `array.sort()` without comparator: ascending order of code units. *)
Fixpoint insertSorted (t : string) (l : list string) : list string :=
  match l with
  | [] => [t]
  | x :: rest =>
      if String.leb t x then t :: l else x :: insertSorted t rest
  end.

Definition sortStrings (l : list string) : list string :=
  fold_right insertSorted [] l.

Definition getAllTags (nodes : list TagNode) : list string :=
  let tagSet :=
    fold_left (fun s node => fold_left setAdd (tagsOf node) s) nodes [] in
  sortStrings tagSet.

(** The palette of [getTagColor]. *)
Definition tagColors : list string :=
  [ "#10b981"; "#3b82f6"; "#f59e0b"; "#ef4444";
    "#8b5cf6"; "#ec4899"; "#14b8a6"; "#f97316" ]%string.

(** `tag.charCodeAt(i)` for every `i`. *)
Definition charCodes (s : string) : list Z :=
  map (fun c => Z.of_N (N_of_ascii c)) (list_ascii_of_string s).

(** The conversion to a signed 32-bit integer that `<<` applies. *)
Definition toInt32 (z : Z) : Z :=
  ((z + 2147483648) mod 4294967296 - 2147483648)%Z.

(** `hash << 5` *)
Definition shiftLeft5 (hash : Z) : Z := toInt32 (toInt32 hash * 32).

(** One turn of the loop: `hash = tag.charCodeAt(i) + ((hash << 5) - hash)`.
    The sum is an integer that a JavaScript number holds exactly for any
    tag shorter than millions of characters. *)
Definition hashStep (hash c : Z) : Z := (c + (shiftLeft5 hash - hash))%Z.

Definition tagHash (tag : string) : Z := fold_left hashStep (charCodes tag) 0%Z.

(** `colors[Math.abs(hash) % colors.length]`: [None] stands for
    `undefined`. *)
Definition getTagColor (tag : string) : option string :=
  nth_error tagColors
            (Z.to_nat (Z.abs (tagHash tag)
                       mod Z.of_nat (List.length tagColors))).

(** Membership in the class `[a-zA-Z0-9_-]`. *)
Definition isTagChar (c : ascii) : bool :=
  let n := N_of_ascii c in
  ((97 <=? n) && (n <=? 122) || (65 <=? n) && (n <=? 90)
   || (48 <=? n) && (n <=? 57) || (n =? 95) || (n =? 45))%N.

(** `/^[a-zA-Z0-9_-]{2,50}$/.test(tag)` *)
Definition isValidTagName (tag : string) : bool :=
  forallb isTagChar (list_ascii_of_string tag)
  && (2 <=? String.length tag)%nat && (String.length tag <=? 50)%nat.

(** `toLowerCase` on one code unit below 256: A-Z and the capital letters
    of Latin-1 (U+00C0 to U+00DE but the multiplication sign) move up
    by 32. *)
Definition lowerChar (c : ascii) : ascii :=
  let n := N_of_ascii c in
  if ((65 <=? n) && (n <=? 90)
      || (192 <=? n) && (n <=? 222) && negb (n =? 215))%N
  then ascii_of_N (n + 32) else c.

(** White space (`\s`, and what `trim` strips) among the code units below
    256: tab, line feed, vertical tab, form feed, carriage return, space and
    no-break space. *)
Definition isSpace (c : ascii) : bool :=
  let n := N_of_ascii c in
  ((9 <=? n) && (n <=? 13) || (n =? 32) || (n =? 160))%N.

Fixpoint trimStart (l : list ascii) : list ascii :=
  match l with
  | [] => []
  | c :: rest => if isSpace c then trimStart rest else l
  end.

Definition trimEnd (l : list ascii) : list ascii :=
  rev (trimStart (rev l)).

(** `.replace(/\s+/g, '-')`: every maximal run of white space becomes one
    hyphen. [inRun] tells that the previous character was white space. *)
Fixpoint replaceSpaceRuns (inRun : bool) (l : list ascii) : list ascii :=
  match l with
  | [] => []
  | c :: rest =>
      if isSpace c
      then if inRun then replaceSpaceRuns true rest
           else "-"%char :: replaceSpaceRuns true rest
      else c :: replaceSpaceRuns false rest
  end.

(** Membership in the class `[a-z0-9_-]`. *)
Definition isNormalChar (c : ascii) : bool :=
  let n := N_of_ascii c in
  ((97 <=? n) && (n <=? 122) || (48 <=? n) && (n <=? 57)
   || (n =? 95) || (n =? 45))%N.

Definition normalizeChars (l : list ascii) : list ascii :=
  filter isNormalChar
         (replaceSpaceRuns false (trimEnd (trimStart (map lowerChar l)))).

Definition normalizeTagName (tag : string) : string :=
  string_of_list_ascii (normalizeChars (list_ascii_of_string tag)).

(** A node without `data`, one with tags, and a list of nodes. *)
Definition bareNode : TagNode := mkTagNode [] None.
Definition taggedNode (ts : list string) : TagNode :=
  mkTagNode [] (Some (mkTagData (Some ts) [])).

(** The order `sort()` sorts by: code unit by code unit. *)
Definition stringLe (a b : string) : Prop := String.leb a b = true.

(** * Properties *)

(** ** Comparisons *)

Lemma Rltb_true (a b : R) : Rltb a b = true <-> a < b.
Proof. unfold Rltb. destruct (Rlt_dec a b); split; intros; try easy. Qed.

Lemma Rgtb_true (a b : R) : Rgtb a b = true <-> b < a.
Proof. unfold Rgtb, Rgt. destruct (Rgt_dec a b); split; intros; try easy. Qed.

Lemma Rleb_true (a b : R) : Rleb a b = true <-> a <= b.
Proof. unfold Rleb. destruct (Rle_dec a b); split; intros; try easy. Qed.

Lemma Rgeb_true (a b : R) : Rgeb a b = true <-> b <= a.
Proof.
  unfold Rgeb. destruct (Rge_dec a b) as [H | H]; split; intros; try easy.
  - lra.
  - exfalso. apply H. lra.
Qed.

Lemma Rltb_false (a b : R) : Rltb a b = false <-> b <= a.
Proof.
  unfold Rltb. destruct (Rlt_dec a b); split; intros; try easy; lra.
Qed.

Lemma Rgtb_false (a b : R) : Rgtb a b = false <-> a <= b.
Proof.
  unfold Rgtb, Rgt. destruct (Rgt_dec a b); split; intros; try easy.
  - unfold Rgt in *. lra.
  - unfold Rgt in *. lra.
Qed.

Lemma truthyNum_true (r : R) : truthyNum r = true <-> r <> 0.
Proof. unfold truthyNum. destruct (Req_dec_T r 0); split; intros; easy. Qed.

Lemma orElse_Some (r b : R) : r <> 0 -> orElse (Some r) b = r.
Proof.
  intros H. unfold orElse, truthyOpt.
  destruct (truthyNum r) eqn:E; [reflexivity |].
  apply truthyNum_true in H. congruence.
Qed.

Lemma orElse_None (b : R) : orElse None b = b.
Proof. reflexivity. Qed.

Lemma numberOrNull_number (v : R) : v <> 0 -> numberOrNull (JNumber v) = Some v.
Proof.
  intros H. cbn. apply truthyNum_true in H. rewrite H. reflexivity.
Qed.

(** Decides the comparisons of a goal over concrete numbers. *)
Ltac decide_cmp :=
  repeat match goal with
  | |- context [Rlt_dec ?a ?b] => destruct (Rlt_dec a b); try lra
  | |- context [Rgt_dec ?a ?b] =>
      destruct (Rgt_dec a b); unfold Rgt in *; try lra
  | |- context [Rle_dec ?a ?b] => destruct (Rle_dec a b); try lra
  | |- context [Rge_dec ?a ?b] =>
      destruct (Rge_dec a b); unfold Rge in *; try lra
  | |- context [Req_dec_T ?a ?b] => destruct (Req_dec_T a b); try lra
  end.

(** Evaluates `Math.min` and `Math.max` over concrete numbers, innermost
    first. *)
Ltac eval_minmax :=
  repeat match goal with
  | |- context [Rmin ?a ?b] =>
      first [ rewrite (Rmin_left a b) by lra
            | rewrite (Rmin_right a b) by lra ]
  | |- context [Rmax ?a ?b] =>
      first [ rewrite (Rmax_left a b) by lra
            | rewrite (Rmax_right a b) by lra ]
  end.

(** ** The AABB test *)

(** The test succeeds exactly when the two closed rectangles meet. *)
Lemma aabbOverlap_true (e1 e2 : Expanded) :
  aabbOverlap e1 e2 = true <->
  e_x e2 <= e_right e1 /\ e_x e1 <= e_right e2 /\
  e_y e2 <= e_bottom e1 /\ e_y e1 <= e_bottom e2.
Proof.
  unfold aabbOverlap.
  rewrite negb_true_iff, !orb_false_iff.
  rewrite !Rltb_false, !Rgtb_false. tauto.
Qed.

(** It fails exactly when a strict gap separates them on some side. *)
Lemma aabbOverlap_false (e1 e2 : Expanded) :
  aabbOverlap e1 e2 = false <->
  e_right e1 < e_x e2 \/ e_right e2 < e_x e1 \/
  e_bottom e1 < e_y e2 \/ e_bottom e2 < e_y e1.
Proof.
  unfold aabbOverlap.
  rewrite negb_false_iff, !orb_true_iff.
  rewrite !Rltb_true, !Rgtb_true. tauto.
Qed.

(** [colliding] is the AABB test between nodes of one parent. *)
Lemma colliding_same_parent (a b : Node) (p : R) :
  parentNode a = parentNode b ->
  colliding (checkCollision a b p) =
  aabbOverlap (expandBy (getNodeBounds a) (p / 2))
              (expandBy (getNodeBounds b) (p / 2)).
Proof.
  intros H. unfold checkCollision.
  destruct (ParentRef_eq_dec (parentNode a) (parentNode b)); [| contradiction].
  destruct (aabbOverlap _ _); reflexivity.
Qed.

Lemma colliding_other_parent (a b : Node) (p : R) :
  parentNode a <> parentNode b ->
  colliding (checkCollision a b p) = false.
Proof.
  intros H. unfold checkCollision.
  destruct (ParentRef_eq_dec (parentNode a) (parentNode b)); easy.
Qed.

(** ** Sample nodes *)

Lemma rootNote_bounds (name : string) (x y : R) :
  getNodeBounds (rootNote name x y) =
  mkBounds x y 200 150 (x + 200 / 2) (y + 150 / 2) (x + 200) (y + 150).
Proof. reflexivity. Qed.

Lemma sized200x150_bounds (name : string) (x y : R) (parent : ParentRef) :
  getNodeBounds (sized200x150 name x y parent) =
  mkBounds x y 200 150 (x + 200 / 2) (y + 150 / 2) (x + 200) (y + 150).
Proof.
  unfold getNodeBounds, resolveWidth, resolveHeight. cbn.
  rewrite !orElse_Some by lra. reflexivity.
Qed.

Example getDefaultNodeSize_timeline :
  getDefaultNodeSize "timeline" = mkSize 700 400.
Proof. reflexivity. Qed.

Example getDefaultNodeSize_unknown :
  getDefaultNodeSize "hologram" = mkSize 200 150.
Proof. reflexivity. Qed.

(** A zero style width is falsy: the default takes over. *)
Example zero_style_width_ignored :
  b_width (getNodeBounds
             (mkNode "n" "chess" (mkPosition 0 0)
                     (Some (mkStyle (Some 0) None)) None PUndefined)) = 360.
Proof.
  cbn [getNodeBounds b_width]. unfold resolveWidth, orElse, truthyOpt.
  cbn [style styleWidth style_width]. unfold truthyNum.
  destruct (Req_dec_T 0 0) as [_ | H]; [reflexivity | contradiction].
Qed.

(** Scenario A of the specification: E1 at (0,0) and a 200 x 150 entity at
    (190,10) collide under padding 37.5. *)
Example scenarioA_collides :
  colliding (checkCollision (sized200x150 "E1" 0 0 PUndefined)
                            (sized200x150 "E2" 190 10 PUndefined) 37.5)
  = true.
Proof.
  rewrite colliding_same_parent by reflexivity.
  apply aabbOverlap_true. rewrite !sized200x150_bounds. cbn. lra.
Qed.

(** ** Edge-touching rectangles (C1) *)

(** C1, counterexample: two notes side by side, the right edge of the first
    exactly on the left edge of the second, padding 0: the check reports a
    collision. *)
Lemma edge_touching_counterexample :
  parentNode (rootNote "a" 0 0) = parentNode (rootNote "b" 200 0) /\
  e_right (padded (rootNote "a" 0 0) 0) = e_x (padded (rootNote "b" 200 0) 0) /\
  colliding (checkCollision (rootNote "a" 0 0) (rootNote "b" 200 0) 0) = true.
Proof.
  split; [reflexivity |]. split.
  - unfold padded. rewrite !rootNote_bounds. cbn. lra.
  - rewrite colliding_same_parent by reflexivity.
    apply aabbOverlap_true. rewrite !rootNote_bounds. cbn. lra.
Qed.

(** C1, amended: for nodes of one parent and any padding, when the padded
    rectangles touch exactly edge-to-edge and no strict gap separates them on
    another side, [checkCollision] reports [colliding = true], with a zero
    overlap on the axis where they touch: only a strict gap counts as
    non-colliding. *)
Theorem edge_touching_collides (a b : Node) (padding : R) :
  parentNode a = parentNode b ->
  rectanglesMeet (padded a padding) (padded b padding) ->
  colliding (checkCollision a b padding) = true /\
  (touchingX (padded a padding) (padded b padding) ->
   overlapX (checkCollision a b padding) = 0) /\
  (touchingY (padded a padding) (padded b padding) ->
   overlapY (checkCollision a b padding) = 0).
Proof.
  intros Hp Hm.
  assert (Ho : aabbOverlap (padded a padding) (padded b padding) = true)
    by (apply aabbOverlap_true; exact Hm).
  unfold checkCollision.
  destruct (ParentRef_eq_dec (parentNode a) (parentNode b)); [| contradiction].
  fold (padded a padding). fold (padded b padding). rewrite Ho.
  destruct Hm as (H1 & H2 & H3 & H4).
  unfold touchingX, touchingY. cbn [colliding overlapX overlapY].
  split; [reflexivity |]. split.
  - intros [Ht | Ht]; unfold Rmin; destruct (Rle_dec _ _); lra.
  - intros [Ht | Ht]; unfold Rmin; destruct (Rle_dec _ _); lra.
Qed.

Lemma edge_touching_collides_witness :
  colliding (checkCollision (rootNote "a" 0 0) (rootNote "b" 200 0) 0) = true /\
  (touchingX (padded (rootNote "a" 0 0) 0) (padded (rootNote "b" 200 0) 0) ->
   overlapX (checkCollision (rootNote "a" 0 0) (rootNote "b" 200 0) 0) = 0) /\
  (touchingY (padded (rootNote "a" 0 0) 0) (padded (rootNote "b" 200 0) 0) ->
   overlapY (checkCollision (rootNote "a" 0 0) (rootNote "b" 200 0) 0) = 0).
Proof.
  apply (edge_touching_collides (rootNote "a" 0 0) (rootNote "b" 200 0) 0).
  - reflexivity.
  - unfold rectanglesMeet, padded. rewrite !rootNote_bounds. cbn. lra.
Defined.

(** ** Nodes of different parents (C6) *)

(** C6: for nodes whose `parentNode` differ (one of them unset included),
    at any positions and for any padding, [checkCollision] returns
    `{colliding: false, overlapX: 0, overlapY: 0, distance: Infinity}` and
    [calculateRepulsionForce] returns `{deltaX: 0, deltaY: 0, strength: 0}`
    (and draws no random number). *)
Theorem cross_parent_no_interaction (a b : Node) (padding : R) (g : Rng) :
  parentNode a <> parentNode b ->
  checkCollision a b padding = mkCollision false 0 0 Infinity /\
  calculateRepulsionForce g a b = (mkForce 0 0 0, g).
Proof.
  intros H. unfold checkCollision, calculateRepulsionForce.
  destruct (ParentRef_eq_dec (parentNode a) (parentNode b)); [contradiction |].
  split; reflexivity.
Qed.

Lemma cross_parent_no_interaction_witness :
  checkCollision (rootNote "a" 0 0) (sized200x150 "b" 10 10 (PId "zone")) 37.5
  = mkCollision false 0 0 Infinity /\
  calculateRepulsionForce (fun _ => 0.25) (rootNote "a" 0 0)
                          (sized200x150 "b" 10 10 (PId "zone"))
  = (mkForce 0 0 0, fun _ => 0.25).
Proof.
  apply (cross_parent_no_interaction
           (rootNote "a" 0 0) (sized200x150 "b" 10 10 (PId "zone")) 37.5
           (fun _ => 0.25)).
  cbn. discriminate.
Defined.

(** ** Shrinking the padding (C7) *)

(** C7: at fixed positions, if [checkCollision] reports no collision with
    padding [p1], it reports none with any smaller padding [p2]. *)
Theorem non_collision_monotone (a b : Node) (p1 p2 : R) :
  p2 < p1 ->
  colliding (checkCollision a b p1) = false ->
  colliding (checkCollision a b p2) = false.
Proof.
  intros Hlt H1.
  destruct (ParentRef_eq_dec (parentNode a) (parentNode b)) as [Hp | Hp].
  - rewrite colliding_same_parent in * by exact Hp.
    apply aabbOverlap_false in H1. apply aabbOverlap_false.
    unfold expandBy in *. cbn in *. lra.
  - apply colliding_other_parent. exact Hp.
Qed.

Lemma non_collision_monotone_witness :
  colliding (checkCollision (rootNote "a" 0 0) (rootNote "b" 500 500) 10)
  = false.
Proof.
  apply (non_collision_monotone (rootNote "a" 0 0) (rootNote "b" 500 500)
                                37.5 10).
  - lra.
  - rewrite colliding_same_parent by reflexivity.
    apply aabbOverlap_false. rewrite !rootNote_bounds. cbn. lra.
Defined.

(** ** Explicit sizes (C3) *)

(** C3, counterexample: with a numeric `data.width` of 300 and a non-numeric
    `data.height`, the bounds of a note are 300 wide (the explicit width, not
    the default 200) and 150 high (the default height). *)
Lemma partial_size_counterexample :
  b_width (getNodeBounds halfSizedNote) = 300 /\
  b_height (getNodeBounds halfSizedNote) = 150 /\
  b_width (getNodeBounds halfSizedNote)
  <> width (getDefaultNodeSize (nodeType halfSizedNote)).
Proof.
  assert (Hw : b_width (getNodeBounds halfSizedNote) = 300).
  { cbn [getNodeBounds b_width]. unfold resolveWidth, halfSizedNote.
    cbn [style data nodeType styleWidth dataWidth data_width].
    rewrite numberOrNull_number, orElse_None, orElse_Some by lra.
    reflexivity. }
  split; [exact Hw |]. split; [reflexivity |].
  rewrite Hw. cbn. lra.
Qed.

Lemma plainType_note : plainType "note".
Proof. unfold plainType. cbn. intuition discriminate. Qed.

Lemma tableEntry_plain (ty : string) :
  plainType ty -> tableEntry ty = SizeEntry (getDefaultNodeSize ty).
Proof.
  intros H. unfold tableEntry, getDefaultNodeSize.
  destruct (lookupSize DEFAULT_NODE_SIZES ty); [reflexivity |].
  destruct (in_dec string_dec ty inheritedKeys); [contradiction | reflexivity].
Qed.

Lemma jsOr_optionalNumber (a : option R) (b : R) :
  jsOr (optionalNumber a) (JNumber b) = JNumber (orElse a b).
Proof.
  unfold jsOr, orElse, truthyOpt. destruct a as [r |]; cbn; [| reflexivity].
  destruct (truthyNum r); reflexivity.
Qed.

Lemma jsOr_numberOrNull (v : JsVal) (b : R) :
  jsOr (numberOrNullJs v) (JNumber b) = JNumber (orElse (numberOrNull v) b).
Proof.
  unfold jsOr, orElse, truthyOpt.
  destruct v as [| | x | r | x]; cbn; try reflexivity.
  destruct (truthyNum r) eqn:E; cbn; rewrite ?E; reflexivity.
Qed.

(** On a node of the numeric model whose type is not the name of an
    inherited member, the two resolutions give the same width and height. *)
Lemma numeric_model_agrees (m : Node) :
  plainType (nodeType m) ->
  resolveWidthJs (sizedOf m) = JNumber (b_width (getNodeBounds m)) /\
  resolveHeightJs (sizedOf m) = JNumber (b_height (getNodeBounds m)).
Proof.
  intros Hplain.
  cbn [getNodeBounds b_width b_height].
  unfold resolveWidthJs, resolveHeightJs, resolveWidth, resolveHeight,
    defaultWidthJs, defaultHeightJs.
  cbn [sizedOf sn_type]. rewrite (tableEntry_plain _ Hplain).
  assert (Hsw : styleWidthJs (sizedOf m) = optionalNumber (styleWidth (style m)))
    by (unfold styleWidthJs, sizedOf; cbn; destruct (style m); reflexivity).
  assert (Hsh : styleHeightJs (sizedOf m)
                = optionalNumber (styleHeight (style m)))
    by (unfold styleHeightJs, sizedOf; cbn; destruct (style m); reflexivity).
  assert (Hdw : jsOr (numberOrNullJs (dataWidthJs (sizedOf m)))
                     (JNumber (width (getDefaultNodeSize (nodeType m))))
                = JNumber (orElse (dataWidth (data m))
                                  (width (getDefaultNodeSize (nodeType m))))).
  { unfold dataWidthJs, dataWidth, sizedOf. cbn [sn_data].
    destruct (data m); [apply jsOr_numberOrNull | reflexivity]. }
  assert (Hdh : jsOr (numberOrNullJs (dataHeightJs (sizedOf m)))
                     (JNumber (height (getDefaultNodeSize (nodeType m))))
                = JNumber (orElse (dataHeight (data m))
                                  (height (getDefaultNodeSize (nodeType m))))).
  { unfold dataHeightJs, dataHeight, sizedOf. cbn [sn_data].
    destruct (data m); [apply jsOr_numberOrNull | reflexivity]. }
  rewrite Hsw, Hsh, Hdw, Hdh, !jsOr_optionalNumber. split; reflexivity.
Qed.

(** The source run by hand on nodes outside the numeric model. *)
Example resolve_string_style :
  resolveWidthJs halfStyledNode = JNumber 300 /\
  resolveHeightJs halfStyledNode = JString "tall".
Proof.
  unfold resolveWidthJs, resolveHeightJs, jsOr, halfStyledNode. cbn.
  unfold truthyNum. destruct (Req_dec_T 300 0); [lra |]. split; reflexivity.
Qed.

Example resolve_inherited_type :
  resolveWidthJs constructorNode = JUndefined /\
  resolveHeightJs constructorNode = JUndefined.
Proof. split; reflexivity. Qed.

(** C3, amended: [getNodeBounds] resolves each dimension on its own, from
    the fields of that dimension alone.  The width is `style.width` when that
    is truthy, taken as it is whatever its type; otherwise `data.width` when
    that is a number other than zero; otherwise the default width of the
    type.  The height likewise.  So a numeric explicit dimension is kept next
    to a default one, and a truthy style dimension that is not a number is
    passed through.  On numeric styles and types that name no inherited
    member this is the width and height of [getNodeBounds]. *)
Theorem partial_size_resolved_per_dimension (n : SizedNode) :
  (truthy (styleWidthJs n) = true -> resolveWidthJs n = styleWidthJs n) /\
  (truthy (styleWidthJs n) = false ->
   (forall w, dataWidthJs n = JNumber w -> w <> 0 ->
      resolveWidthJs n = JNumber w) /\
   ((forall w, dataWidthJs n = JNumber w -> w = 0) ->
      resolveWidthJs n = defaultWidthJs (sn_type n))) /\
  (truthy (styleHeightJs n) = true -> resolveHeightJs n = styleHeightJs n) /\
  (truthy (styleHeightJs n) = false ->
   (forall h, dataHeightJs n = JNumber h -> h <> 0 ->
      resolveHeightJs n = JNumber h) /\
   ((forall h, dataHeightJs n = JNumber h -> h = 0) ->
      resolveHeightJs n = defaultHeightJs (sn_type n))) /\
  (forall m : Node, n = sizedOf m -> plainType (nodeType m) ->
     resolveWidthJs n = JNumber (b_width (getNodeBounds m)) /\
     resolveHeightJs n = JNumber (b_height (getNodeBounds m))).
Proof.
  assert (Hyes : forall a b, truthy a = true -> jsOr a b = a)
    by (intros a b H; unfold jsOr; rewrite H; reflexivity).
  assert (Hno : forall a b, truthy a = false -> jsOr a b = b)
    by (intros a b H; unfold jsOr; rewrite H; reflexivity).
  assert (Hnum : forall v r b, v = JNumber r -> r <> 0 ->
                   jsOr (numberOrNullJs v) b = JNumber r).
  { intros v r b -> Hr. apply truthyNum_true in Hr.
    unfold jsOr. cbn. rewrite Hr. cbn. rewrite Hr. reflexivity. }
  assert (Hnone : forall v b, (forall r, v = JNumber r -> r = 0) ->
                    jsOr (numberOrNullJs v) b = b).
  { intros v b Hv. unfold jsOr.
    destruct v as [| | x | r | x]; cbn; try reflexivity.
    destruct (truthyNum r) eqn:E; [| reflexivity].
    apply truthyNum_true in E. exfalso. apply E, Hv. reflexivity. }
  unfold resolveWidthJs, resolveHeightJs.
  split; [| split; [| split; [| split]]].
  - intros H. apply Hyes, H.
  - intros H. rewrite (Hno _ _ H). split.
    + intros w Hw Hnz. apply Hnum; assumption.
    + intros Hz. apply Hnone, Hz.
  - intros H. apply Hyes, H.
  - intros H. rewrite (Hno _ _ H). split.
    + intros h Hh Hnz. apply Hnum; assumption.
    + intros Hz. apply Hnone, Hz.
  - intros m -> Hplain. apply numeric_model_agrees, Hplain.
Qed.

Lemma partial_size_resolved_per_dimension_witness :
  resolveWidthJs halfStyledNode = styleWidthJs halfStyledNode /\
  resolveHeightJs halfStyledNode = styleHeightJs halfStyledNode /\
  resolveWidthJs (sizedOf halfSizedNote)
  = JNumber (b_width (getNodeBounds halfSizedNote)).
Proof.
  destruct (partial_size_resolved_per_dimension halfStyledNode)
    as (Hw & _ & Hh & _).
  destruct (partial_size_resolved_per_dimension (sizedOf halfSizedNote))
    as (_ & _ & _ & _ & Hm).
  split; [| split].
  - apply Hw. cbn. apply truthyNum_true. lra.
  - apply Hh. reflexivity.
  - apply (Hm halfSizedNote eq_refl). apply plainType_note.
Defined.

(** ** Scenario B (C9) *)

Lemma sqrt_between (x lo hi : R) :
  0 <= lo -> 0 <= hi -> lo * lo < x -> x < hi * hi -> lo < sqrt x < hi.
Proof.
  intros Hlo Hhi H1 H2. split.
  - rewrite <- (sqrt_square lo) by exact Hlo.
    apply sqrt_lt_1_alt. nra.
  - rewrite <- (sqrt_square hi) by exact Hhi.
    apply sqrt_lt_1_alt. nra.
Qed.

(** What the check returns in scenario B. *)
Lemma scenarioB_result :
  checkCollision E1 E2 37.5 = mkCollision false 0 0 (Finite (sqrt 500000)).
Proof.
  unfold checkCollision.
  destruct (ParentRef_eq_dec (parentNode E1) (parentNode E2)) as [_ | H];
    [| exfalso; apply H; reflexivity].
  assert (Hd : centerDistance (getNodeBounds E1) (getNodeBounds E2)
               = sqrt 500000).
  { unfold E1, E2, centerDistance. rewrite !sized200x150_bounds. cbn.
    f_equal. lra. }
  assert (Ho : aabbOverlap (expandBy (getNodeBounds E1) (37.5 / 2))
                           (expandBy (getNodeBounds E2) (37.5 / 2)) = false).
  { apply aabbOverlap_false. unfold E1, E2.
    rewrite !sized200x150_bounds. cbn. lra. }
  rewrite Ho, Hd. reflexivity.
Qed.

(** C9, counterexample: the check reports no collision, but the distance it
    returns is more than 707, not within 1 of 678.8. *)
Lemma scenarioB_counterexample :
  ~ (colliding (checkCollision E1 E2 37.5) = false /\
     exists d, distance (checkCollision E1 E2 37.5) = Finite d /\
               Rabs (d - 678.8) <= 1).
Proof.
  rewrite scenarioB_result. cbn. intros [_ (d & Hd & Habs)].
  injection Hd as <-.
  assert (H : 707 < sqrt 500000 < 708) by (apply sqrt_between; lra).
  unfold Rabs in Habs. destruct (Rcase_abs _); lra.
Qed.

(** C9, amended: for E1 at (0,0) and E2 at (500,500), both 200 x 150 and in
    one container, the check with padding 37.5 returns `colliding = false`
    and the centre-to-centre distance `sqrt 500000`, about 707.1. *)
Theorem scenarioB_distance :
  colliding (checkCollision E1 E2 37.5) = false /\
  distance (checkCollision E1 E2 37.5) = Finite (sqrt 500000) /\
  707.1 < sqrt 500000 < 707.2.
Proof.
  rewrite scenarioB_result. cbn.
  split; [reflexivity |]. split; [reflexivity |].
  apply sqrt_between; lra.
Qed.

(** ** The repulsion force *)

Lemma sqrt_sum_squares_zero (dx dy : R) :
  sqrt (dx * dx + dy * dy) = 0 <-> dx = 0 /\ dy = 0.
Proof.
  split.
  - intros H. apply sqrt_eq_0 in H; [| nra]. split; nra.
  - intros [-> ->]. replace (0 * 0 + 0 * 0) with 0 by lra. apply sqrt_0.
Qed.

Lemma sum_squares_nonneg (u v : R) : 0 <= u * u + v * v.
Proof. nra. Qed.

Lemma sum_squares_pos (u v : R) : u <> 0 \/ v <> 0 -> 0 < u * u + v * v.
Proof.
  intros [H | H]; apply Rsqr_pos_lt in H; unfold Rsqr in H; nra.
Qed.

Lemma centerDistance_pos (a b : Node) :
  centersDiffer a b ->
  0 < centerDistance (getNodeBounds a) (getNodeBounds b).
Proof.
  intros H. unfold centerDistance.
  apply sqrt_lt_R0. apply sum_squares_pos.
  unfold centersDiffer, centerVecX, centerVecY in H.
  destruct H as [H | H]; [left | right]; lra.
Qed.

Lemma zoneMinOverlap_nonneg (a b : Node) :
  zonesOverlap a b = true -> 0 <= zoneMinOverlap a b.
Proof.
  unfold zonesOverlap, zoneMinOverlap. intros H.
  apply aabbOverlap_true in H. destruct H as (H1 & H2 & H3 & H4).
  cbv zeta. repeat apply Rmin_glb; lra.
Qed.

(** The branch taken off centre: the unit vector from the other node's
    centre to the dragged node's, scaled by 0.8 times the smaller overlap;
    no random number is drawn. *)
Lemma repulsion_off_centre (g : Rng) (draggedNode otherNode : Node) :
  parentNode draggedNode = parentNode otherNode ->
  zonesOverlap draggedNode otherNode = true ->
  centersDiffer draggedNode otherNode ->
  exists s,
    calculateRepulsionForce g draggedNode otherNode =
    (mkForce
       (- centerVecX draggedNode otherNode
          / centerDistance (getNodeBounds draggedNode)
                           (getNodeBounds otherNode)
          * (zoneMinOverlap draggedNode otherNode * 0.8))
       (- centerVecY draggedNode otherNode
          / centerDistance (getNodeBounds draggedNode)
                           (getNodeBounds otherNode)
          * (zoneMinOverlap draggedNode otherNode * 0.8))
       s, g) /\
    forall g', fst (calculateRepulsionForce g' draggedNode otherNode)
               = fst (calculateRepulsionForce g draggedNode otherNode).
Proof.
  intros Hp Ho Hc.
  pose proof (centerDistance_pos _ _ Hc) as Hd.
  unfold calculateRepulsionForce.
  destruct (ParentRef_eq_dec _ _) as [_ | Hn]; [| contradiction].
  unfold zonesOverlap, repulsionZone in Ho. rewrite Ho.
  fold (centerDistance (getNodeBounds draggedNode) (getNodeBounds otherNode)).
  destruct (Req_dec_T _ 0) as [Hz | _]; [lra |].
  eexists. split.
  - unfold zoneMinOverlap, repulsionZone, centerVecX, centerVecY.
    cbv zeta. f_equal. f_equal.
    + f_equal. f_equal. lra.
    + f_equal. f_equal. lra.
  - intros g'. reflexivity.
Qed.

Lemma adaptivePadding_bounds (a b : Node) :
  20 <= calculateAdaptivePadding a b <= 100.
Proof.
  unfold calculateAdaptivePadding. cbv zeta. split.
  - apply Rmax_l.
  - apply Rmax_lub; [lra | apply Rmin_l].
Qed.

Lemma rootNote_padding (n1 n2 : string) (x1 y1 x2 y2 : R) :
  calculateAdaptivePadding (rootNote n1 x1 y1) (rootNote n2 x2 y2) = 37.5.
Proof.
  unfold calculateAdaptivePadding. rewrite !rootNote_bounds. cbn.
  eval_minmax. lra.
Qed.

(** The branch taken on coinciding centres: one draw, a push of length 30
    at the drawn angle. *)
Lemma repulsion_on_centre (g : Rng) (draggedNode otherNode : Node) :
  parentNode draggedNode = parentNode otherNode ->
  zonesOverlap draggedNode otherNode = true ->
  centerVecX draggedNode otherNode = 0 ->
  centerVecY draggedNode otherNode = 0 ->
  calculateRepulsionForce g draggedNode otherNode =
  (mkForce (cos (g 0%nat * PI * 2) * 30) (sin (g 0%nat * PI * 2) * 30) 1,
   fun n => g (S n)).
Proof.
  intros Hp Ho Hx Hy. unfold calculateRepulsionForce.
  destruct (ParentRef_eq_dec _ _) as [_ | Hn]; [| contradiction].
  unfold zonesOverlap, repulsionZone in Ho. rewrite Ho.
  destruct (Req_dec_T _ 0) as [_ | Hz]; [reflexivity |].
  exfalso. apply Hz. apply sqrt_sum_squares_zero.
  unfold centerVecX, centerVecY in *. lra.
Qed.

(** ** Direction of the force (C2) *)

Lemma draggedNote_otherNote_facts :
  zonesOverlap draggedNote otherNote = true /\
  centerVecX draggedNote otherNote = 100 /\
  centerVecY draggedNote otherNote = 0 /\
  centerDistance (getNodeBounds draggedNote) (getNodeBounds otherNote) = 100 /\
  zoneMinOverlap draggedNote otherNote = 175.
Proof.
  unfold zonesOverlap, zoneMinOverlap, repulsionZone, centerVecX, centerVecY,
    centerDistance, draggedNote, otherNote.
  rewrite rootNote_padding, !rootNote_bounds. cbn.
  split; [apply aabbOverlap_true; cbn; lra |].
  split; [lra |]. split; [lra |]. split.
  - apply sqrt_lem_1; lra.
  - eval_minmax. lra.
Qed.

(** C2, counterexample: a note dragged at (0,0) and another note at (100,0).
    The zones overlap and the centres differ; the vector from the dragged
    centre to the other centre is (100, 0); the force returned is
    (-140, 0), whose dot product with that vector is negative. *)
Lemma repulsion_direction_counterexample :
  parentNode draggedNote = parentNode otherNote /\
  zonesOverlap draggedNote otherNote = true /\
  centersDiffer draggedNote otherNote /\
  deltaX (fst (calculateRepulsionForce (fun _ => 0) draggedNote otherNote))
  = -140 /\
  deltaY (fst (calculateRepulsionForce (fun _ => 0) draggedNote otherNote))
  = 0 /\
  dot (fst (calculateRepulsionForce (fun _ => 0) draggedNote otherNote))
      (centerVecX draggedNote otherNote) (centerVecY draggedNote otherNote)
  < 0.
Proof.
  destruct draggedNote_otherNote_facts as (Ho & Hx & Hy & Hd & Hm).
  assert (Hc : centersDiffer draggedNote otherNote) by (left; lra).
  destruct (repulsion_off_centre (fun _ => 0) draggedNote otherNote
              eq_refl Ho Hc) as (s & -> & _).
  unfold dot. cbn [fst deltaX deltaY]. rewrite Hx, Hy, Hd, Hm.
  repeat split; try assumption; lra.
Qed.

(** C2, amended: for same-container nodes whose full-padding zones overlap
    and whose centres differ, the returned delta lies on the centre-to-centre
    axis and points from the other node's centre towards the dragged node's:
    its dot product with the vector from dragged's centre to other's centre
    is minus the distance times 0.8 times the smaller overlap, never
    positive, and negative when that overlap is positive.  Added to the
    position of `other` it moves it towards `dragged`. *)
Theorem repulsion_points_toward_dragged (g : Rng)
    (draggedNode otherNode : Node) :
  parentNode draggedNode = parentNode otherNode ->
  zonesOverlap draggedNode otherNode = true ->
  centersDiffer draggedNode otherNode ->
  dot (fst (calculateRepulsionForce g draggedNode otherNode))
      (centerVecX draggedNode otherNode) (centerVecY draggedNode otherNode)
  = - (centerDistance (getNodeBounds draggedNode) (getNodeBounds otherNode)
       * (zoneMinOverlap draggedNode otherNode * 0.8)) /\
  dot (fst (calculateRepulsionForce g draggedNode otherNode))
      (centerVecX draggedNode otherNode) (centerVecY draggedNode otherNode)
  <= 0 /\
  (0 < zoneMinOverlap draggedNode otherNode ->
   dot (fst (calculateRepulsionForce g draggedNode otherNode))
       (centerVecX draggedNode otherNode) (centerVecY draggedNode otherNode)
   < 0) /\
  deltaX (fst (calculateRepulsionForce g draggedNode otherNode))
  * centerVecY draggedNode otherNode
  - deltaY (fst (calculateRepulsionForce g draggedNode otherNode))
    * centerVecX draggedNode otherNode = 0.
Proof.
  intros Hp Ho Hc.
  pose proof (centerDistance_pos _ _ Hc) as Hd.
  pose proof (zoneMinOverlap_nonneg _ _ Ho) as Hm.
  destruct (repulsion_off_centre g _ _ Hp Ho Hc) as (s & -> & _).
  unfold dot. cbn [fst deltaX deltaY].
  set (D := centerDistance _ _) in *.
  set (m := zoneMinOverlap _ _) in *.
  set (vx := centerVecX _ _). set (vy := centerVecY _ _).
  assert (HD : D * D = vx * vx + vy * vy).
  { subst D vx vy. unfold centerDistance, centerVecX, centerVecY. cbv zeta.
    rewrite sqrt_sqrt by apply sum_squares_nonneg. ring. }
  assert (Hdot : - vx / D * (m * 0.8) * vx + - vy / D * (m * 0.8) * vy
                 = - (D * (m * 0.8))).
  { replace (- vx / D * (m * 0.8) * vx + - vy / D * (m * 0.8) * vy)
      with (- ((vx * vx + vy * vy) / D * (m * 0.8))) by (field; lra).
    rewrite <- HD. field. lra. }
  rewrite Hdot. split; [reflexivity |]. split; [nra |]. split; [nra |].
  field. lra.
Qed.

Lemma repulsion_points_toward_dragged_witness :
  dot (fst (calculateRepulsionForce (fun _ => 0) draggedNote otherNote))
      (centerVecX draggedNote otherNote) (centerVecY draggedNote otherNote)
  <= 0.
Proof.
  apply (repulsion_points_toward_dragged (fun _ => 0) draggedNote otherNote).
  - reflexivity.
  - apply draggedNote_otherNote_facts.
  - left. destruct draggedNote_otherNote_facts as (_ & Hx & _). lra.
Defined.

(** ** The random push (C8) *)

Lemma stacked_zonesOverlap : zonesOverlap stackedA stackedB = true.
Proof.
  unfold zonesOverlap, repulsionZone, stackedA, stackedB.
  rewrite rootNote_padding, !rootNote_bounds.
  apply aabbOverlap_true. cbn. lra.
Qed.

Lemma stacked_first_call :
  calculateRepulsionForce drawsZeroHalf stackedA stackedB
  = (mkForce 30 0 1, fun _ => 0.5).
Proof.
  rewrite repulsion_on_centre.
  - cbn [drawsZeroHalf].
    replace (0 * PI * 2) with 0 by lra. rewrite cos_0, sin_0.
    f_equal. f_equal; lra.
  - reflexivity.
  - apply stacked_zonesOverlap.
  - unfold centerVecX, stackedA, stackedB. rewrite !rootNote_bounds. cbn. lra.
  - unfold centerVecY, stackedA, stackedB. rewrite !rootNote_bounds. cbn. lra.
Qed.

Lemma stacked_second_call :
  fst (calculateRepulsionForce (fun _ => 0.5) stackedA stackedB)
  = mkForce (-30) 0 1.
Proof.
  rewrite repulsion_on_centre.
  - cbn [fst].
    replace (0.5 * PI * 2) with PI by lra. rewrite cos_PI, sin_PI.
    f_equal; lra.
  - reflexivity.
  - apply stacked_zonesOverlap.
  - unfold centerVecX, stackedA, stackedB. rewrite !rootNote_bounds. cbn. lra.
  - unfold centerVecY, stackedA, stackedB. rewrite !rootNote_bounds. cbn. lra.
Qed.

(** C8, counterexample: two calls in a row on the same two notes with
    coinciding centres, the random source drawing 0 and then 0.5, return
    (30, 0, 1) and then (-30, 0, 1). *)
Lemma random_push_counterexample :
  let first := calculateRepulsionForce drawsZeroHalf stackedA stackedB in
  let second := calculateRepulsionForce (snd first) stackedA stackedB in
  fst first = mkForce 30 0 1 /\
  fst second = mkForce (-30) 0 1 /\
  fst first <> fst second.
Proof.
  cbv zeta. rewrite stacked_first_call. cbn [fst snd].
  rewrite stacked_second_call.
  split; [reflexivity |]. split; [reflexivity |].
  intros H. injection H as H. lra.
Qed.

(** C8, amended: the result of [calculateRepulsionForce] is a function of
    its two nodes and of the next draw of the random source.  Whenever the
    parents differ, the zones do not overlap or the centres differ, it is a
    function of the two nodes alone: every call returns the same result and
    leaves the random source as it was.  Only when the centres coincide
    inside overlapping zones does the result follow the draw. *)
Theorem repulsion_deterministic_off_centre (g1 g2 : Rng)
    (draggedNode otherNode : Node) :
  (g1 0%nat = g2 0%nat ->
   fst (calculateRepulsionForce g1 draggedNode otherNode)
   = fst (calculateRepulsionForce g2 draggedNode otherNode))
  /\
  (parentNode draggedNode <> parentNode otherNode
   \/ zonesOverlap draggedNode otherNode = false
   \/ centersDiffer draggedNode otherNode ->
   fst (calculateRepulsionForce g1 draggedNode otherNode)
   = fst (calculateRepulsionForce g2 draggedNode otherNode)
   /\ snd (calculateRepulsionForce g1 draggedNode otherNode) = g1).
Proof.
  split.
  - intros Hdraw. unfold calculateRepulsionForce.
    destruct (ParentRef_eq_dec _ _); [| reflexivity].
    destruct (aabbOverlap _ _); [| reflexivity].
    destruct (Req_dec_T _ 0); [| reflexivity].
    cbn. rewrite Hdraw. reflexivity.
  - intros H.
    destruct (ParentRef_eq_dec (parentNode draggedNode) (parentNode otherNode))
      as [Hp | Hp].
    + destruct (zonesOverlap draggedNode otherNode) eqn:Ho.
      * destruct H as [H | [H | H]]; [contradiction | discriminate |].
        destruct (repulsion_off_centre g1 _ _ Hp Ho H) as (s & E1 & Hall).
        split; [symmetry; apply Hall | rewrite E1; reflexivity].
      * unfold calculateRepulsionForce.
        destruct (ParentRef_eq_dec _ _); [| contradiction].
        unfold zonesOverlap, repulsionZone in Ho. rewrite Ho.
        split; reflexivity.
    + unfold calculateRepulsionForce.
      destruct (ParentRef_eq_dec _ _); [contradiction |].
      split; reflexivity.
Qed.

Lemma repulsion_deterministic_off_centre_witness :
  fst (calculateRepulsionForce drawsZeroHalf draggedNote otherNote)
  = fst (calculateRepulsionForce (fun _ => 0.5) draggedNote otherNote)
  /\ snd (calculateRepulsionForce drawsZeroHalf draggedNote otherNote)
     = drawsZeroHalf.
Proof.
  apply (repulsion_deterministic_off_centre
           drawsZeroHalf (fun _ => 0.5) draggedNote otherNote).
  right. right. left.
  destruct draggedNote_otherNote_facts as (_ & Hx & _). lra.
Defined.

(** ** The ring of candidates (C4) *)

Lemma positionsPerRadius_value : positionsPerRadius = 16%Z.
Proof.
  unfold positionsPerRadius, angleStep.
  pose proof PI_RGT_0 as Hpi.
  replace (2 * PI / (PI / 8)) with 16 by (field; lra).
  symmetry. apply Int_part_spec. lra.
Qed.

Lemma ringIndices_value : ringIndices = seq 0 16.
Proof.
  unfold ringIndices. rewrite positionsPerRadius_value. reflexivity.
Qed.

(** C4: the inner loop of the spiral runs through 16 indices at each radius,
    a sixteenth of a turn apart (`angleStep` is an eighth of a half turn),
    so that the candidate of index [i + 8] lies opposite the candidate of
    index [i] with respect to the preferred position: 16 points are probed
    per radius, not 8. *)
Theorem spiral_probes_sixteen_per_radius :
  positionsPerRadius = 16%Z /\
  List.length ringIndices = 16%nat /\
  16 * angleStep = 2 * PI /\
  forall (preferredPosition : Position) (stepSize radius : R) (i : nat),
    pos_x (candidate preferredPosition stepSize radius (i + 8))
    - pos_x preferredPosition
    = - (pos_x (candidate preferredPosition stepSize radius i)
         - pos_x preferredPosition) /\
    pos_y (candidate preferredPosition stepSize radius (i + 8))
    - pos_y preferredPosition
    = - (pos_y (candidate preferredPosition stepSize radius i)
         - pos_y preferredPosition).
Proof.
  split; [exact positionsPerRadius_value |].
  split; [rewrite ringIndices_value; reflexivity |].
  split; [unfold angleStep; lra |].
  intros pref stepSize radius i. unfold candidate. cbn [pos_x pos_y].
  rewrite plus_INR.
  replace ((INR i + INR 8) * angleStep + radius / stepSize * 0.5)
    with ((INR i * angleStep + radius / stepSize * 0.5) + PI)
    by (unfold angleStep; simpl INR; lra).
  rewrite neg_cos, neg_sin. split; lra.
Qed.

(** ** The placement search *)

Lemma collidesAny_false (testNode : Node) (otherNodes : list Node) :
  collidesAny testNode otherNodes = false <->
  forall o, In o otherNodes -> collidesWith testNode o = false.
Proof.
  unfold collidesAny. induction otherNodes as [| o rest IH]; cbn.
  - split; [intros _ o [] | reflexivity].
  - rewrite orb_false_iff, IH. split.
    + intros [Ho Hrest] o' [<- | Hin]; [exact Ho | apply Hrest, Hin].
    + intros H. split; [apply H; left; reflexivity |].
      intros o' Hin. apply H. right. exact Hin.
Qed.

(** The size of a node does not depend on where it is. *)
Lemma withPosition_size (n : Node) (p : Position) :
  b_width (getNodeBounds (withPosition n p)) = b_width (getNodeBounds n) /\
  b_height (getNodeBounds (withPosition n p)) = b_height (getNodeBounds n).
Proof. split; reflexivity. Qed.

Section SpiralFacts.

Variables (node : Node) (otherNodes : list Node).
Variables (preferredPosition : Position) (district : option District).
Variables (padding : R) (nodeBounds : Bounds) (stepSize : R).

Local Abbreviation valid :=
  (validCandidate node otherNodes district padding nodeBounds).
Local Abbreviation probe :=
  (probeRing node otherNodes preferredPosition district padding nodeBounds
             stepSize).
Local Abbreviation search :=
  (spiral node otherNodes preferredPosition district padding nodeBounds
          stepSize).

(** What the inner loop returns is a candidate of the ring that passed
    both tests. *)
Lemma probeRing_Some (radius : R) (indices : list nat) (p : Position) :
  probe radius indices = Some p ->
  valid p = true /\
  exists i, In i indices /\ p = candidate preferredPosition stepSize radius i.
Proof.
  unfold validCandidate.
  induction indices as [| i rest IH]; cbn [probeRing]; [discriminate |].
  set (c := candidate preferredPosition stepSize radius i).
  destruct (isWithinDistrictBounds district padding c nodeBounds) eqn:Hin;
    cbn [negb].
  - destruct (collidesAny (withPosition node c) otherNodes) eqn:Hc.
    + intros H. destruct (IH H) as (Hv & j & Hj & Hp).
      split; [exact Hv |]. exists j. split; [right; exact Hj | exact Hp].
    + intros [= <-]. rewrite Hin, Hc. split; [reflexivity |].
      exists i. split; [left; reflexivity | reflexivity].
  - intros H. destruct (IH H) as (Hv & j & Hj & Hp).
    split; [exact Hv |]. exists j. split; [right; exact Hj | exact Hp].
Qed.

(** When no candidate passes, the inner loop returns nothing. *)
Lemma probeRing_None (radius : R) (indices : list nat) :
  (forall i, In i indices ->
             valid (candidate preferredPosition stepSize radius i) = false) ->
  probe radius indices = None.
Proof.
  unfold validCandidate.
  induction indices as [| i rest IH]; cbn [probeRing]; [reflexivity |].
  intros H. pose proof (H i (or_introl eq_refl)) as Hi.
  set (c := candidate preferredPosition stepSize radius i) in *.
  destruct (isWithinDistrictBounds district padding c nodeBounds);
    cbn [negb andb] in *.
  - apply negb_false_iff in Hi. rewrite Hi. apply IH.
    intros j Hj. apply H. right. exact Hj.
  - apply IH. intros j Hj. apply H. right. exact Hj.
Qed.

Lemma spiral_Found (fuel : nat) (radius : R) (p : Position) :
  search fuel radius = Found p -> valid p = true.
Proof.
  revert radius.
  induction fuel as [| fuel IH]; intros radius; cbn.
  - destruct (Rlt_dec radius maxRadius); discriminate.
  - destruct (Rlt_dec radius maxRadius); [| discriminate].
    destruct (probeRing _ _ _ _ _ _ _ radius ringIndices) eqn:Hp.
    + intros [= <-]. apply probeRing_Some in Hp. apply Hp.
    + apply IH.
Qed.



(** When no position at all passes the tests, a search with enough fuel
    runs through every radius and gives up. *)
Lemma spiral_Exhausted (fuel : nat) (radius : R) :
  (forall p, valid p = false) ->
  0 < stepSize ->
  maxRadius - radius <= INR fuel * stepSize ->
  search fuel radius = Exhausted.
Proof.
  intros Hnone Hstep. revert radius.
  induction fuel as [| fuel IH]; intros radius Hfuel.
  - cbn in *. destruct (Rlt_dec radius maxRadius); [lra | reflexivity].
  - cbn [spiral]. destruct (Rlt_dec radius maxRadius); [| reflexivity].
    fold probe. rewrite probeRing_None by (intros; apply Hnone).
    apply IH. rewrite S_INR in Hfuel. lra.
Qed.

End SpiralFacts.

(** With a step that is not positive the radius never grows: when no
    position passes the tests the loop over radii does not end, whatever the
    fuel. *)
Lemma spiral_stuck (node : Node) (otherNodes : list Node)
    (preferredPosition : Position) (district : option District)
    (padding : R) (nodeBounds : Bounds) (stepSize : R)
    (fuel : nat) (radius : R) :
  (forall p, validCandidate node otherNodes district padding nodeBounds p
             = false) ->
  stepSize <= 0 ->
  radius < maxRadius ->
  spiral node otherNodes preferredPosition district padding nodeBounds
         stepSize fuel radius = OutOfFuel.
Proof.
  intros Hnone Hstep. revert radius.
  induction fuel as [| fuel IH]; intros radius Hr; cbn [spiral];
    destruct (Rlt_dec radius maxRadius); try contradiction;
    [reflexivity |].
  rewrite probeRing_None by (intros; apply Hnone).
  apply IH. lra.
Qed.

(** A note preferring the place of a peer: on the first ring (radius 20)
    every candidate still overlaps the peer, so the inner loop goes through
    all its indices and accepts none. *)
Lemma first_ring_rejected :
  probeRing (rootNote "n" 0 0) [rootNote "peer" 0 0] (mkPosition 0 0) None 50
            (getNodeBounds (rootNote "n" 0 0)) 20 20 ringIndices = None.
Proof.
  apply probeRing_None. intros i _.
  unfold validCandidate, collidesAny, collidesWith, candidate.
  cbn [isWithinDistrictBounds andb existsb].
  set (angle := INR i * angleStep + 20 / 20 * 0.5).
  change (withPosition (rootNote "n" 0 0)
            (mkPosition (pos_x (mkPosition 0 0) + cos angle * 20)
                        (pos_y (mkPosition 0 0) + sin angle * 20)))
    with (rootNote "n" (0 + cos angle * 20) (0 + sin angle * 20)).
  rewrite rootNote_padding, colliding_same_parent by reflexivity.
  assert (Ho : aabbOverlap
                 (expandBy (getNodeBounds
                              (rootNote "n" (0 + cos angle * 20)
                                        (0 + sin angle * 20))) (37.5 / 2))
                 (expandBy (getNodeBounds (rootNote "peer" 0 0)) (37.5 / 2))
               = true).
  { apply aabbOverlap_true. rewrite !rootNote_bounds. cbn.
    pose proof (COS_bound angle) as [Hc1 Hc2].
    pose proof (SIN_bound angle) as [Hs1 Hs2]. lra. }
  rewrite Ho. reflexivity.
Qed.

Lemma isWithinDistrictBounds_Some (d : District) (padding : R)
    (pos : Position) (nodeBounds : Bounds) :
  isWithinDistrictBounds (Some d) padding pos nodeBounds = true <->
  padding <= pos_x pos /\ padding <= pos_y pos /\
  pos_x pos + b_width nodeBounds <= districtWidth d - padding /\
  pos_y pos + b_height nodeBounds <= districtHeight d - padding.
Proof.
  cbn. rewrite !andb_true_iff, !Rgeb_true, !Rleb_true. tauto.
Qed.

(** Every position returned passed both tests, or is the fallback. *)
Lemma findValidPosition_sound (fuel : nat) (node : Node)
    (allNodes : list Node) (preferredPosition : Position)
    (district : option District) (padding : R) (p : Position) :
  findValidPosition fuel node allNodes preferredPosition district padding
  = Some p ->
  (isWithinDistrictBounds district padding p
     (getNodeBounds (withPosition node preferredPosition)) = true
   /\ collisionFree node allNodes p)
  \/ p = fallbackPosition district padding preferredPosition
           (getNodeBounds (withPosition node preferredPosition)).
Proof.
  unfold findValidPosition. cbv zeta.
  set (nb := getNodeBounds (withPosition node preferredPosition)).
  set (others := filter (isOtherNode node) allNodes).
  destruct (isWithinDistrictBounds district padding preferredPosition nb)
    eqn:Hin; cbn [negb].
  - destruct (collidesAny (withPosition node preferredPosition) others)
      eqn:Hc; cbn [negb].
    + destruct (spiral _ _ _ _ _ _ _ fuel _) eqn:Hs; intros H.
      * injection H as <-. apply spiral_Found in Hs.
        unfold validCandidate in Hs. apply andb_true_iff in Hs.
        destruct Hs as [Hb Hf]. apply negb_true_iff in Hf.
        left. split; [exact Hb |].
        exact (proj1 (collidesAny_false _ _) Hf).
      * right. unfold fallbackPosition. destruct district; congruence.
      * discriminate.
    + intros [= <-]. left. split; [exact Hin |].
      exact (proj1 (collidesAny_false _ _) Hc).
  - destruct (spiral _ _ _ _ _ _ _ fuel _) eqn:Hs; intros H.
    + injection H as <-. apply spiral_Found in Hs.
      unfold validCandidate in Hs. apply andb_true_iff in Hs.
      destruct Hs as [Hb Hf]. apply negb_true_iff in Hf.
      left. split; [exact Hb |].
        exact (proj1 (collidesAny_false _ _) Hf).
    + right. unfold fallbackPosition. destruct district; congruence.
    + discriminate.
Qed.




(** ** Termination and validity of the placement (C5) *)



(** ** The default district size (C10) *)

Lemma districtWidth_default (d : District) :
  styleWidth (district_style d) = None -> districtWidth d = 1200.
Proof. intros H. unfold districtWidth. rewrite H. reflexivity. Qed.

Lemma districtHeight_default (d : District) :
  styleHeight (district_style d) = None -> districtHeight d = 1000.
Proof. intros H. unfold districtHeight. rewrite H. reflexivity. Qed.

(** With an edge padding of 700 no position passes the bounds test of a
    1200 x 1000 district: the search for a note ends in the clamp. *)
Lemma wide_padding_fallback :
  findValidPosition 100 (rootNote "n" 0 0) [] (mkPosition 0 0)
                    (Some plainDistrict) 700
  = Some (mkPosition 700 700).
Proof.
  assert (Hout : forall p,
             isWithinDistrictBounds (Some plainDistrict) 700 p
               (getNodeBounds (withPosition (rootNote "n" 0 0)
                                            (mkPosition 0 0))) = false).
  { intros p. apply not_true_is_false. intros H.
    apply isWithinDistrictBounds_Some in H. cbn in H. lra. }
  unfold findValidPosition. cbv zeta. rewrite Hout. cbn [negb].
  assert (Hstep : Rmax (b_width (getNodeBounds (withPosition (rootNote "n" 0 0)
                                                  (mkPosition 0 0))))
                       (b_height (getNodeBounds (withPosition (rootNote "n" 0 0)
                                                   (mkPosition 0 0)))) * 0.1
                  = 20).
  { cbn. eval_minmax. lra. }
  rewrite Hstep, spiral_Exhausted.
  - unfold clampToDistrict. cbn. f_equal. f_equal; eval_minmax; lra.
  - intros p. unfold validCandidate. rewrite Hout. reflexivity.
  - lra.
  - unfold maxRadius. rewrite INR_IZR_INZ. cbn. lra.
Qed.

(** C10, counterexample: a note (200 x 150) preferring (0,0) in a district
    without width or height, with an edge padding of 700.  The search falls
    back to the clamp and returns (700, 700), which is beyond the far edges
    of the padded 1200 x 1000 rectangle (1200 - 700 = 500 and
    1000 - 700 = 300). *)
Lemma default_district_counterexample :
  findValidPosition 100 (rootNote "n" 0 0) [] (mkPosition 0 0)
                    (Some plainDistrict) 700
  = Some (clampToDistrict plainDistrict 700 (mkPosition 0 0)
            (getNodeBounds (withPosition (rootNote "n" 0 0)
                                         (mkPosition 0 0)))) /\
  clampToDistrict plainDistrict 700 (mkPosition 0 0)
    (getNodeBounds (withPosition (rootNote "n" 0 0) (mkPosition 0 0)))
  = mkPosition 700 700 /\
  ~ (700 <= 1200 - 700) /\ ~ (700 <= 1000 - 700).
Proof.
  assert (Hc : clampToDistrict plainDistrict 700 (mkPosition 0 0)
                 (getNodeBounds (withPosition (rootNote "n" 0 0)
                                              (mkPosition 0 0)))
               = mkPosition 700 700).
  { unfold clampToDistrict. cbn. f_equal; eval_minmax; lra. }
  rewrite Hc. split; [exact wide_padding_fallback |].
  split; [reflexivity |]. split; lra.
Qed.

Lemma candidate_sqDist (preferredPosition : Position) (stepSize radius : R)
    (i : nat) :
  sqDist (candidate preferredPosition stepSize radius i) preferredPosition
  = radius * radius.
Proof.
  unfold sqDist, candidate. cbn [pos_x pos_y].
  set (angle := INR i * angleStep + radius / stepSize * 0.5).
  pose proof (sin2_cos2 angle) as H. unfold Rsqr in H. nra.
Qed.

(** When every candidate of every ring from [radius] on is rejected, a
    search with enough fuel runs through the radii and gives up. *)
Lemma spiral_Exhausted_rings (node : Node) (otherNodes : list Node)
    (preferredPosition : Position) (district : option District)
    (padding : R) (nodeBounds : Bounds) (stepSize : R)
    (fuel : nat) (radius : R) :
  (forall r i, radius <= r ->
     validCandidate node otherNodes district padding nodeBounds
       (candidate preferredPosition stepSize r i) = false) ->
  0 < stepSize ->
  maxRadius - radius <= INR fuel * stepSize ->
  spiral node otherNodes preferredPosition district padding nodeBounds
         stepSize fuel radius = Exhausted.
Proof.
  intros Hnone Hstep. revert radius Hnone.
  induction fuel as [| fuel IH]; intros radius Hnone Hfuel.
  - cbn in *. destruct (Rlt_dec radius maxRadius); [lra | reflexivity].
  - cbn [spiral].
    destruct (Rlt_dec radius maxRadius) as [Hlt | Hge]; [| reflexivity].
    rewrite probeRing_None by (intros; apply Hnone; lra).
    apply IH.
    + intros r i Hr. apply Hnone. lra.
    + rewrite S_INR in Hfuel. lra.
Qed.

(** A node that fits its district exactly, preferring a place less than a
    step to the right of the only place it fits: no candidate of the spiral
    is that place, the search runs out of radii and the clamp puts the node
    there. *)
Lemma exact_fit_fallback (fuel : nat) (node : Node) (allNodes : list Node)
    (d : District) (padding delta : R) :
  0 < delta < stepSizeOf node ->
  districtWidth d = b_width (getNodeBounds node) + 2 * padding ->
  districtHeight d = b_height (getNodeBounds node) + 2 * padding ->
  maxRadius - stepSizeOf node <= INR fuel * stepSizeOf node ->
  findValidPosition fuel node allNodes (mkPosition (padding + delta) padding)
                    (Some d) padding
  = Some (clampToDistrict d padding (mkPosition (padding + delta) padding)
            (getNodeBounds (withPosition node
                              (mkPosition (padding + delta) padding)))) /\
  clampToDistrict d padding (mkPosition (padding + delta) padding)
    (getNodeBounds (withPosition node (mkPosition (padding + delta) padding)))
  = mkPosition padding padding.
Proof.
  intros [Hd0 Hd1] HW HH Hfuel.
  set (pref := mkPosition (padding + delta) padding).
  set (nb := getNodeBounds (withPosition node pref)).
  destruct (withPosition_size node pref) as [Hw Hh]. fold nb in Hw, Hh.
  assert (Hclamp : clampToDistrict d padding pref nb
                   = mkPosition padding padding).
  { unfold clampToDistrict. rewrite Hw, Hh, HW, HH. subst pref.
    cbn [pos_x pos_y]. f_equal; eval_minmax; lra. }
  split; [| exact Hclamp].
  assert (Hin : forall p, isWithinDistrictBounds (Some d) padding p nb = true
                          -> p = mkPosition padding padding).
  { intros [x y] H. apply isWithinDistrictBounds_Some in H.
    rewrite Hw, Hh, HW, HH in H. cbn [pos_x pos_y] in H. f_equal; lra. }
  unfold findValidPosition. cbv zeta. fold pref. fold nb.
  assert (Hpref : isWithinDistrictBounds (Some d) padding pref nb = false).
  { apply not_true_is_false. intros H. apply Hin in H.
    subst pref. injection H as H. lra. }
  rewrite Hpref. cbn [negb].
  change (Rmax (b_width nb) (b_height nb) * 0.1) with (stepSizeOf node).
  rewrite spiral_Exhausted_rings; [reflexivity | | lra | exact Hfuel].
  intros r i Hr. unfold validCandidate.
  destruct (isWithinDistrictBounds (Some d) padding
              (candidate pref (stepSizeOf node) r i) nb) eqn:E;
    [| reflexivity].
  exfalso. apply Hin in E.
  pose proof (candidate_sqDist pref (stepSizeOf node) r i) as Hsq.
  rewrite E in Hsq. unfold sqDist, pref in Hsq. cbn [pos_x pos_y] in Hsq.
  nra.
Qed.

(** A node of 1100 x 900 in a district without size (1200 x 1000 by
    default), edge padding 50. *)
Lemma tight_default_district :
  plainType (nodeType (styledNode "n" 1100 900 0 0)) /\
  b_width (getNodeBounds (styledNode "n" 1100 900 0 0)) = 1100 /\
  b_height (getNodeBounds (styledNode "n" 1100 900 0 0)) = 900 /\
  stepSizeOf (styledNode "n" 1100 900 0 0) = 110.
Proof.
  assert (Hb : b_width (getNodeBounds (styledNode "n" 1100 900 0 0)) = 1100 /\
               b_height (getNodeBounds (styledNode "n" 1100 900 0 0)) = 900).
  { cbn [getNodeBounds b_width b_height].
    unfold resolveWidth, resolveHeight, styledNode.
    cbn [style styleWidth styleHeight style_width style_height].
    rewrite !orElse_Some by lra. split; reflexivity. }
  destruct Hb as [Hw Hh].
  split; [apply plainType_note |]. split; [exact Hw |]. split; [exact Hh |].
  unfold stepSizeOf. rewrite Hw, Hh. eval_minmax. lra.
Qed.

(** C10, amended: when the district has no width (no height), the search
    takes 1200 (1000) for it, both in the bounds test of the candidates and
    in the final clamp.  For a node whose type names no inherited member and
    whose resolved width and height are not negative, the clamped fallback
    position, like every position the search returns, lies within the padded
    1200 x 1000 rectangle on an axis whenever twice the edge padding is at
    most the size on that axis (an edge padding of 500 or less for both);
    with a larger edge padding the padded rectangle is empty and the clamped
    position lies beyond its far edge. *)
Theorem default_district_size (fuel : nat) (node : Node)
    (allNodes : list Node) (preferredPosition : Position) (d : District)
    (padding : R) (p : Position) :
  plainType (nodeType node) ->
  0 <= b_width (getNodeBounds node) ->
  0 <= b_height (getNodeBounds node) ->
  findValidPosition fuel node allNodes preferredPosition (Some d) padding
  = Some p ->
  (styleWidth (district_style d) = None ->
   districtWidth d = 1200 /\
   (2 * padding <= 1200 ->
    padding <= pos_x p <= 1200 - padding /\
    padding
    <= pos_x (clampToDistrict d padding preferredPosition
                (getNodeBounds (withPosition node preferredPosition)))
    <= 1200 - padding) /\
   (1200 < 2 * padding ->
    1200 - padding
    < pos_x (clampToDistrict d padding preferredPosition
               (getNodeBounds (withPosition node preferredPosition)))))
  /\
  (styleHeight (district_style d) = None ->
   districtHeight d = 1000 /\
   (2 * padding <= 1000 ->
    padding <= pos_y p <= 1000 - padding /\
    padding
    <= pos_y (clampToDistrict d padding preferredPosition
                (getNodeBounds (withPosition node preferredPosition)))
    <= 1000 - padding) /\
   (1000 < 2 * padding ->
    1000 - padding
    < pos_y (clampToDistrict d padding preferredPosition
               (getNodeBounds (withPosition node preferredPosition))))).
Proof.
  intros _ Hw0 Hh0 H. apply findValidPosition_sound in H.
  destruct (withPosition_size node preferredPosition) as [Hw Hh].
  set (nb := getNodeBounds (withPosition node preferredPosition)) in *.
  assert (Hcx : forall W, districtWidth d = W -> 2 * padding <= W ->
            padding <= pos_x (clampToDistrict d padding preferredPosition nb)
            <= W - padding).
  { intros W HW Hfit. unfold clampToDistrict. cbn [pos_x].
    rewrite HW, Hw. split; [apply Rmax_l |].
    apply Rmax_lub; [lra |]. etransitivity; [apply Rmin_r | lra]. }
  assert (Hcy : forall H', districtHeight d = H' -> 2 * padding <= H' ->
            padding <= pos_y (clampToDistrict d padding preferredPosition nb)
            <= H' - padding).
  { intros H' HH Hfit. unfold clampToDistrict. cbn [pos_y].
    rewrite HH, Hh. split; [apply Rmax_l |].
    apply Rmax_lub; [lra |]. etransitivity; [apply Rmin_r | lra]. }
  split; intros Hnone.
  - pose proof (districtWidth_default d Hnone) as HW.
    split; [exact HW |]. split.
    + intros Hfit. split; [| apply Hcx; assumption].
      destruct H as [[Hin _] | ->].
      * apply isWithinDistrictBounds_Some in Hin. rewrite Hw, HW in Hin. lra.
      * cbn [fallbackPosition]. apply Hcx; assumption.
    + intros Hbig. unfold clampToDistrict. cbn [pos_x].
      pose proof (Rmax_l padding
                    (Rmin (pos_x preferredPosition)
                          (districtWidth d - b_width nb - padding))). lra.
  - pose proof (districtHeight_default d Hnone) as HH.
    split; [exact HH |]. split.
    + intros Hfit. split; [| apply Hcy; assumption].
      destruct H as [[Hin _] | ->].
      * apply isWithinDistrictBounds_Some in Hin. rewrite Hh, HH in Hin. lra.
      * cbn [fallbackPosition]. apply Hcy; assumption.
    + intros Hbig. unfold clampToDistrict. cbn [pos_y].
      pose proof (Rmax_l padding
                    (Rmin (pos_y preferredPosition)
                          (districtHeight d - b_height nb - padding))). lra.
Qed.

(** The witness reaches the clamp: the node of [tight_default_district]
    prefers (55, 50), fits at (50, 50) only, and the search falls back. *)
Lemma default_district_size_witness :
  findValidPosition 20 (styledNode "n" 1100 900 0 0) [] (mkPosition (50 + 5) 50)
                    (Some plainDistrict) 50
  = Some (clampToDistrict plainDistrict 50 (mkPosition (50 + 5) 50)
            (getNodeBounds (withPosition (styledNode "n" 1100 900 0 0)
                                         (mkPosition (50 + 5) 50)))) /\
  (50
   <= pos_x (clampToDistrict plainDistrict 50 (mkPosition (50 + 5) 50)
               (getNodeBounds (withPosition (styledNode "n" 1100 900 0 0)
                                            (mkPosition (50 + 5) 50))))
   <= 1200 - 50) /\
  (50
   <= pos_y (clampToDistrict plainDistrict 50 (mkPosition (50 + 5) 50)
               (getNodeBounds (withPosition (styledNode "n" 1100 900 0 0)
                                            (mkPosition (50 + 5) 50))))
   <= 1000 - 50).
Proof.
  destruct tight_default_district as (Hplain & Hw & Hh & Hstep).
  assert (Hrun : findValidPosition 20 (styledNode "n" 1100 900 0 0) []
                   (mkPosition (50 + 5) 50) (Some plainDistrict) 50
                 = Some (clampToDistrict plainDistrict 50
                           (mkPosition (50 + 5) 50)
                           (getNodeBounds
                              (withPosition (styledNode "n" 1100 900 0 0)
                                            (mkPosition (50 + 5) 50))))).
  { apply (exact_fit_fallback 20 (styledNode "n" 1100 900 0 0) []
                              plainDistrict 50 5).
    - rewrite Hstep. lra.
    - rewrite Hw. rewrite districtWidth_default by reflexivity. lra.
    - rewrite Hh. rewrite districtHeight_default by reflexivity. lra.
    - rewrite Hstep. unfold maxRadius. rewrite INR_IZR_INZ. cbn. lra. }
  split; [exact Hrun |].
  destruct (default_district_size 20 (styledNode "n" 1100 900 0 0) []
              (mkPosition (50 + 5) 50) plainDistrict 50 _ Hplain
              ltac:(rewrite Hw; lra) ltac:(rewrite Hh; lra) Hrun)
    as [Hx Hy].
  split.
  - apply (Hx eq_refl). lra.
  - apply (Hy eq_refl). lra.
Defined.


(** * Further properties of the collision module *)

(** ** Default sizes and bounds *)

Lemma lookupSize_In (table : list (string * Size)) (key : string) (s : Size) :
  lookupSize table key = Some s -> In (key, s) table.
Proof.
  induction table as [| [k v] rest IH]; cbn; [discriminate |].
  destruct (string_dec k key) as [-> | _].
  - intros [= ->]. left. reflexivity.
  - intros H. right. apply IH, H.
Qed.

Lemma inheritedKeys_not_listed (ty : string) :
  In ty inheritedKeys -> lookupSize DEFAULT_NODE_SIZES ty = None.
Proof.
  unfold inheritedKeys. cbn [In]. intros H.
  repeat (destruct H as [<- | H]; [reflexivity |]). destruct H.
Qed.

(** X1: the entry the table gives for a type is an inherited member exactly
    for the twelve member names every object inherits; for every other type,
    known or not, it is the size [getDefaultNodeSize] returns, between 80
    and 700 wide and between 80 and 600 high. *)
Theorem default_size_range (ty : string) :
  (In ty inheritedKeys -> tableEntry ty = InheritedMember) /\
  (plainType ty ->
   tableEntry ty = SizeEntry (getDefaultNodeSize ty) /\
   80 <= width (getDefaultNodeSize ty) <= 700 /\
   80 <= height (getDefaultNodeSize ty) <= 600).
Proof.
  split.
  - intros Hin. unfold tableEntry.
    rewrite (inheritedKeys_not_listed ty Hin).
    destruct (in_dec string_dec ty inheritedKeys); [reflexivity |].
    contradiction.
  - intros Hplain. split; [apply tableEntry_plain, Hplain |].
    assert (Hall : Forall (fun e => 80 <= width (snd e) <= 700 /\
                                    80 <= height (snd e) <= 600)
                          DEFAULT_NODE_SIZES).
    { unfold DEFAULT_NODE_SIZES.
      repeat (apply Forall_cons; [cbn; lra |]). apply Forall_nil. }
    unfold getDefaultNodeSize.
    destruct (lookupSize DEFAULT_NODE_SIZES ty) as [sz |] eqn:E.
    + apply lookupSize_In in E. rewrite Forall_forall in Hall.
      apply (Hall _ E).
    + cbn. lra.
Qed.

Lemma default_size_range_witness :
  tableEntry "constructor" = InheritedMember /\
  tableEntry "note" = SizeEntry (getDefaultNodeSize "note") /\
  80 <= width (getDefaultNodeSize "note") <= 700 /\
  80 <= height (getDefaultNodeSize "note") <= 600.
Proof.
  split.
  - apply (default_size_range "constructor"). left. reflexivity.
  - apply (default_size_range "note"). apply plainType_note.
Defined.

(** No default dimension is zero or negative. *)
Lemma defaultSize_positive (ty : string) :
  0 < width (getDefaultNodeSize ty) /\ 0 < height (getDefaultNodeSize ty).
Proof.
  unfold getDefaultNodeSize.
  destruct (lookupSize DEFAULT_NODE_SIZES ty) as [s |] eqn:E; [| cbn; lra].
  apply lookupSize_In in E. revert E. unfold DEFAULT_NODE_SIZES.
  cbn [In]. intros H.
  repeat (destruct H as [H | H]; [injection H as _ <-; cbn; lra |]).
  destruct H.
Qed.

Lemma truthy_jsOr (a b : JsVal) : truthy b = true -> truthy (jsOr a b) = true.
Proof. intros H. unfold jsOr. destruct (truthy a) eqn:E; assumption. Qed.

Lemma positive_jsOr (a b : JsVal) :
  (truthy a = true -> nonNegativeNumber a) ->
  (exists r, b = JNumber r /\ 0 < r) ->
  exists r, jsOr a b = JNumber r /\ 0 < r.
Proof.
  intros Ha Hb. unfold jsOr. destruct (truthy a) eqn:E; [| exact Hb].
  destruct (Ha eq_refl) as (r & -> & Hr). exists r. split; [reflexivity |].
  cbn in E. apply truthyNum_true in E. lra.
Qed.

Lemma positive_numberOrNull (v : JsVal) :
  (forall r, v = JNumber r -> 0 <= r) ->
  truthy (numberOrNullJs v) = true -> nonNegativeNumber (numberOrNullJs v).
Proof.
  intros Hv. destruct v as [| | x | r | x]; cbn; try discriminate.
  destruct (truthyNum r); [| discriminate].
  intros _. exists r. split; [reflexivity | apply Hv; reflexivity].
Qed.

(** X2: for a node whose type names no inherited member, the width and the
    height [getNodeBounds] resolves are never zero, nor any other falsy value
    (an explicit zero is passed over for the next source); they are positive
    numbers when every explicit dimension the resolution can pick is a
    number that is not negative.  For a type that names an inherited member
    and no explicit size, they are `undefined` ([resolve_inherited_type]). *)
Theorem bounds_never_degenerate (n : SizedNode) :
  plainType (sn_type n) ->
  truthy (resolveWidthJs n) = true /\
  truthy (resolveHeightJs n) = true /\
  (noNegativeSizeJs n ->
   exists w h, resolveWidthJs n = JNumber w /\ resolveHeightJs n = JNumber h /\
               0 < w /\ 0 < h) /\
  (forall m : Node, n = sizedOf m ->
     b_width (getNodeBounds m) <> 0 /\ b_height (getNodeBounds m) <> 0).
Proof.
  intros Hplain.
  pose proof (defaultSize_positive (sn_type n)) as [Hdw Hdh].
  assert (Hw : defaultWidthJs (sn_type n)
               = JNumber (width (getDefaultNodeSize (sn_type n))))
    by (unfold defaultWidthJs; rewrite (tableEntry_plain _ Hplain);
        reflexivity).
  assert (Hh : defaultHeightJs (sn_type n)
               = JNumber (height (getDefaultNodeSize (sn_type n))))
    by (unfold defaultHeightJs; rewrite (tableEntry_plain _ Hplain);
        reflexivity).
  assert (Htw : truthy (resolveWidthJs n) = true).
  { unfold resolveWidthJs. apply truthy_jsOr, truthy_jsOr. rewrite Hw.
    cbn. apply truthyNum_true. lra. }
  assert (Hth : truthy (resolveHeightJs n) = true).
  { unfold resolveHeightJs. apply truthy_jsOr, truthy_jsOr. rewrite Hh.
    cbn. apply truthyNum_true. lra. }
  split; [exact Htw |]. split; [exact Hth |]. split.
  - intros (Hsw & Hsh & Hnw & Hnh).
    destruct (positive_jsOr (styleWidthJs n)
                (jsOr (numberOrNullJs (dataWidthJs n))
                      (defaultWidthJs (sn_type n))) Hsw) as (w & Ew & Hwpos).
    { apply positive_jsOr; [apply positive_numberOrNull, Hnw |].
      rewrite Hw. eexists. split; [reflexivity | lra]. }
    destruct (positive_jsOr (styleHeightJs n)
                (jsOr (numberOrNullJs (dataHeightJs n))
                      (defaultHeightJs (sn_type n))) Hsh) as (h & Eh & Hhpos).
    { apply positive_jsOr; [apply positive_numberOrNull, Hnh |].
      rewrite Hh. eexists. split; [reflexivity | lra]. }
    exists w, h. unfold resolveWidthJs, resolveHeightJs.
    repeat split; assumption.
  - intros m ->. cbn [sizedOf sn_type] in Hplain.
    destruct (numeric_model_agrees m Hplain) as [Ew Eh].
    rewrite Ew in Htw. rewrite Eh in Hth. cbn in Htw, Hth.
    split; apply truthyNum_true; assumption.
Qed.

Lemma bounds_never_degenerate_witness :
  exists w h,
    resolveWidthJs (sizedOf (styledNode "n" 0 0 0 0)) = JNumber w /\
    resolveHeightJs (sizedOf (styledNode "n" 0 0 0 0)) = JNumber h /\
    0 < w /\ 0 < h.
Proof.
  apply (bounds_never_degenerate (sizedOf (styledNode "n" 0 0 0 0))).
  - apply plainType_note.
  - unfold noNegativeSizeJs, nonNegativeNumber. cbn.
    repeat split; try discriminate.
    + intros _. exists 0. split; [reflexivity | lra].
    + intros _. exists 0. split; [reflexivity | lra].
Defined.

(** ** Adaptive padding *)

Lemma Rmax4_ub (a b c d : R) :
  a <= Rmax4 a b c d /\ b <= Rmax4 a b c d /\
  c <= Rmax4 a b c d /\ d <= Rmax4 a b c d.
Proof.
  unfold Rmax4.
  pose proof (Rmax_l a b). pose proof (Rmax_r a b).
  pose proof (Rmax_l (Rmax a b) c). pose proof (Rmax_r (Rmax a b) c).
  pose proof (Rmax_l (Rmax (Rmax a b) c) d).
  pose proof (Rmax_r (Rmax (Rmax a b) c) d).
  lra.
Qed.

Lemma Rmax4_lub (a b c d m : R) :
  a <= m -> b <= m -> c <= m -> d <= m -> Rmax4 a b c d <= m.
Proof. intros. unfold Rmax4. repeat apply Rmax_lub; assumption. Qed.

Lemma Rmax4_swap (a b c d : R) : Rmax4 a b c d = Rmax4 c d a b.
Proof.
  destruct (Rmax4_ub a b c d) as (? & ? & ? & ?).
  destruct (Rmax4_ub c d a b) as (? & ? & ? & ?).
  apply Rle_antisym; apply Rmax4_lub; assumption.
Qed.

Lemma adaptivePadding_symmetric_parts (a b : Node) :
  calculateAdaptivePadding a b = calculateAdaptivePadding b a /\
  zoneMaxDimension a b = zoneMaxDimension b a.
Proof.
  assert (H : calculateAdaptivePadding a b = calculateAdaptivePadding b a).
  { unfold calculateAdaptivePadding. cbv zeta. do 3 f_equal. lra. }
  split; [exact H |].
  unfold zoneMaxDimension. cbv zeta. rewrite H. apply Rmax4_swap.
Qed.

(** X3: for two nodes whose types name no inherited member, the adaptive
    padding of the pair is the same in both orders, lies between 20 and 100,
    and does not depend on where the two nodes are. *)
Theorem adaptivePadding_symmetric_bounded (a b : Node) (p q : Position) :
  plainType (nodeType a) ->
  plainType (nodeType b) ->
  calculateAdaptivePadding a b = calculateAdaptivePadding b a /\
  20 <= calculateAdaptivePadding a b <= 100 /\
  calculateAdaptivePadding (withPosition a p) (withPosition b q)
  = calculateAdaptivePadding a b.
Proof.
  intros _ _. split; [| split].
  - apply adaptivePadding_symmetric_parts.
  - apply adaptivePadding_bounds.
  - reflexivity.
Qed.

Lemma adaptivePadding_symmetric_bounded_witness :
  calculateAdaptivePadding (rootNote "a" 0 0) (styledNode "b" 400 300 10 10)
  = calculateAdaptivePadding (styledNode "b" 400 300 10 10) (rootNote "a" 0 0)
  /\
  20 <= calculateAdaptivePadding (rootNote "a" 0 0)
                                 (styledNode "b" 400 300 10 10) <= 100 /\
  calculateAdaptivePadding
    (withPosition (rootNote "a" 0 0) (mkPosition 5 5))
    (withPosition (styledNode "b" 400 300 10 10) (mkPosition 7 7))
  = calculateAdaptivePadding (rootNote "a" 0 0)
                             (styledNode "b" 400 300 10 10).
Proof.
  apply (adaptivePadding_symmetric_bounded
           (rootNote "a" 0 0) (styledNode "b" 400 300 10 10)
           (mkPosition 5 5) (mkPosition 7 7)).
  - apply plainType_note.
  - apply plainType_note.
Defined.

(** X4: between nodes that are at most 800 in average side, the padding is
    not clamped: it is 20 plus a tenth of the average of the four sides;
    above, it is 100. *)
Theorem adaptivePadding_value (a b : Node) :
  let avgSize := (b_width (getNodeBounds a) + b_height (getNodeBounds a)
                  + b_width (getNodeBounds b) + b_height (getNodeBounds b))
                 / 4 in
  (0 <= avgSize <= 800 ->
   calculateAdaptivePadding a b = 20 + avgSize * 0.1) /\
  (800 <= avgSize -> calculateAdaptivePadding a b = 100) /\
  (avgSize <= 0 -> calculateAdaptivePadding a b = 20).
Proof.
  cbv zeta. unfold calculateAdaptivePadding. cbv zeta.
  set (avg := (_ + _ + _ + _) / 4).
  repeat split; intros H; eval_minmax; lra.
Qed.

Lemma adaptivePadding_value_witness :
  calculateAdaptivePadding (rootNote "a" 0 0) (rootNote "b" 0 0)
  = 20 + (b_width (getNodeBounds (rootNote "a" 0 0))
          + b_height (getNodeBounds (rootNote "a" 0 0))
          + b_width (getNodeBounds (rootNote "b" 0 0))
          + b_height (getNodeBounds (rootNote "b" 0 0))) / 4 * 0.1.
Proof.
  apply (adaptivePadding_value (rootNote "a" 0 0) (rootNote "b" 0 0)).
  rewrite !rootNote_bounds. cbn. lra.
Defined.

(** ** The collision check *)

Lemma aabbOverlap_sym (e1 e2 : Expanded) :
  aabbOverlap e1 e2 = aabbOverlap e2 e1.
Proof.
  apply eq_true_iff_eq. rewrite !aabbOverlap_true. tauto.
Qed.

Lemma centerDistance_sym (b1 b2 : Bounds) :
  centerDistance b1 b2 = centerDistance b2 b1.
Proof. unfold centerDistance. cbv zeta. f_equal. ring. Qed.

(** X5: the collision check does not depend on the order of the two nodes:
    same verdict, same overlaps, same distance. *)
Theorem checkCollision_symmetric (a b : Node) (padding : R) :
  checkCollision a b padding = checkCollision b a padding.
Proof.
  unfold checkCollision.
  destruct (ParentRef_eq_dec (parentNode a) (parentNode b)) as [Hab | Hab];
    destruct (ParentRef_eq_dec (parentNode b) (parentNode a)) as [Hba | Hba];
    try congruence.
  rewrite (aabbOverlap_sym (expandBy (getNodeBounds b) (padding / 2))).
  rewrite (centerDistance_sym (getNodeBounds b)).
  destruct (aabbOverlap _ _); [| reflexivity].
  f_equal; apply Rmin_comm.
Qed.

(** X6: for two nodes whose types name no inherited member, the overlaps
    reported are never negative, they are zero when there is no collision,
    and on each axis the overlap is at most the larger of the two sides plus
    the padding. *)
Theorem overlap_bounds (a b : Node) (padding : R) :
  plainType (nodeType a) ->
  plainType (nodeType b) ->
  0 <= overlapX (checkCollision a b padding) /\
  0 <= overlapY (checkCollision a b padding) /\
  (colliding (checkCollision a b padding) = false ->
   overlapX (checkCollision a b padding) = 0 /\
   overlapY (checkCollision a b padding) = 0) /\
  (colliding (checkCollision a b padding) = true ->
   overlapX (checkCollision a b padding)
   <= Rmax (b_width (getNodeBounds a)) (b_width (getNodeBounds b)) + padding
   /\
   overlapY (checkCollision a b padding)
   <= Rmax (b_height (getNodeBounds a)) (b_height (getNodeBounds b))
      + padding).
Proof.
  intros _ _. unfold checkCollision.
  destruct (ParentRef_eq_dec (parentNode a) (parentNode b)) as [Hp | Hp];
    [| cbn; repeat split; try lra; discriminate].
  destruct (aabbOverlap _ _) eqn:Ho;
    [| cbn [overlapX overlapY colliding]; repeat split; try lra;
       discriminate].
  apply aabbOverlap_true in Ho. cbn in Ho. destruct Ho as (H1 & H2 & H3 & H4).
  cbn [overlapX overlapY colliding expandBy e_x e_y e_right e_bottom
       getNodeBounds b_x b_y b_right b_bottom b_width b_height] in *.
  split; [apply Rmin_glb; lra |]. split; [apply Rmin_glb; lra |].
  split; [discriminate |]. intros _.
  pose proof (Rmax_l (resolveWidth a) (resolveWidth b)).
  pose proof (Rmax_r (resolveWidth a) (resolveWidth b)).
  pose proof (Rmax_l (resolveHeight a) (resolveHeight b)).
  pose proof (Rmax_r (resolveHeight a) (resolveHeight b)).
  split.
  - destruct (Rle_dec (pos_x (position a)) (pos_x (position b))).
    + etransitivity; [apply Rmin_l | lra].
    + etransitivity; [apply Rmin_r | lra].
  - destruct (Rle_dec (pos_y (position a)) (pos_y (position b))).
    + etransitivity; [apply Rmin_l | lra].
    + etransitivity; [apply Rmin_r | lra].
Qed.

Lemma overlap_bounds_witness :
  overlapX (checkCollision (rootNote "a" 0 0) (rootNote "b" 100 0) 10)
  <= Rmax (b_width (getNodeBounds (rootNote "a" 0 0)))
          (b_width (getNodeBounds (rootNote "b" 100 0))) + 10 /\
  overlapY (checkCollision (rootNote "a" 0 0) (rootNote "b" 100 0) 10)
  <= Rmax (b_height (getNodeBounds (rootNote "a" 0 0)))
          (b_height (getNodeBounds (rootNote "b" 100 0))) + 10.
Proof.
  apply (overlap_bounds (rootNote "a" 0 0) (rootNote "b" 100 0) 10).
  - apply plainType_note.
  - apply plainType_note.
  - rewrite colliding_same_parent by reflexivity.
    apply aabbOverlap_true. rewrite !rootNote_bounds. cbn. lra.
Defined.

(** ** Moving both nodes together *)

Lemma translate_bounds (n : Node) (dx dy : R) :
  getNodeBounds (translate n dx dy) =
  mkBounds (b_x (getNodeBounds n) + dx) (b_y (getNodeBounds n) + dy)
           (b_width (getNodeBounds n)) (b_height (getNodeBounds n))
           (b_centerX (getNodeBounds n) + dx)
           (b_centerY (getNodeBounds n) + dy)
           (b_right (getNodeBounds n) + dx)
           (b_bottom (getNodeBounds n) + dy).
Proof.
  unfold translate, getNodeBounds, withPosition, resolveWidth, resolveHeight.
  cbn. f_equal; lra.
Qed.

Lemma aabbOverlap_shift (e1 e2 f1 f2 : Expanded) (dx dy : R) :
  e_x f1 = e_x e1 + dx -> e_right f1 = e_right e1 + dx ->
  e_y f1 = e_y e1 + dy -> e_bottom f1 = e_bottom e1 + dy ->
  e_x f2 = e_x e2 + dx -> e_right f2 = e_right e2 + dx ->
  e_y f2 = e_y e2 + dy -> e_bottom f2 = e_bottom e2 + dy ->
  aabbOverlap f1 f2 = aabbOverlap e1 e2.
Proof.
  intros. apply eq_true_iff_eq. rewrite !aabbOverlap_true. lra.
Qed.

Lemma expandBy_translate (n : Node) (dx dy pad : R) :
  e_x (expandBy (getNodeBounds (translate n dx dy)) pad)
  = e_x (expandBy (getNodeBounds n) pad) + dx /\
  e_right (expandBy (getNodeBounds (translate n dx dy)) pad)
  = e_right (expandBy (getNodeBounds n) pad) + dx /\
  e_y (expandBy (getNodeBounds (translate n dx dy)) pad)
  = e_y (expandBy (getNodeBounds n) pad) + dy /\
  e_bottom (expandBy (getNodeBounds (translate n dx dy)) pad)
  = e_bottom (expandBy (getNodeBounds n) pad) + dy.
Proof. rewrite translate_bounds. cbn. lra. Qed.

Lemma centerDistance_translate (a b : Node) (dx dy : R) :
  centerDistance (getNodeBounds (translate a dx dy))
                 (getNodeBounds (translate b dx dy))
  = centerDistance (getNodeBounds a) (getNodeBounds b).
Proof.
  rewrite !translate_bounds. unfold centerDistance. cbn. f_equal. ring.
Qed.

(** X7: moving both nodes by the same offset changes nothing in the result
    of the collision check: verdict, overlaps and distance are the same. *)
Theorem checkCollision_translation_invariant (a b : Node)
    (padding dx dy : R) :
  checkCollision (translate a dx dy) (translate b dx dy) padding
  = checkCollision a b padding.
Proof.
  unfold checkCollision.
  change (parentNode (translate a dx dy)) with (parentNode a).
  change (parentNode (translate b dx dy)) with (parentNode b).
  destruct (ParentRef_eq_dec (parentNode a) (parentNode b)); [| reflexivity].
  rewrite centerDistance_translate.
  destruct (expandBy_translate a dx dy (padding / 2)) as (A1 & A2 & A3 & A4).
  destruct (expandBy_translate b dx dy (padding / 2)) as (B1 & B2 & B3 & B4).
  rewrite (aabbOverlap_shift _ _ _ _ dx dy A1 A2 A3 A4 B1 B2 B3 B4).
  destruct (aabbOverlap _ _); [| reflexivity].
  rewrite A1, A2, A3, A4, B1, B2, B3, B4.
  f_equal; f_equal; lra.
Qed.

(** ** More on the repulsion force *)

(** The result of [calculateRepulsionForce], branch by branch, in the
    vocabulary of the statements. *)
Lemma calculateRepulsionForce_eq (g : Rng) (a b : Node) :
  calculateRepulsionForce g a b =
  if ParentRef_eq_dec (parentNode a) (parentNode b) then
    if zonesOverlap a b then
      if Req_dec_T (centerDistance (getNodeBounds a) (getNodeBounds b)) 0
      then (mkForce (cos (g 0%nat * PI * 2) * 30)
                    (sin (g 0%nat * PI * 2) * 30) 1, fun n => g (S n))
      else (mkForce
              (- centerVecX a b
                 / centerDistance (getNodeBounds a) (getNodeBounds b)
               * (zoneMinOverlap a b * 0.8))
              (- centerVecY a b
                 / centerDistance (getNodeBounds a) (getNodeBounds b)
               * (zoneMinOverlap a b * 0.8))
              (smoothstep (Rmin (zoneMinOverlap a b / zoneMaxDimension a b)
                                1)), g)
    else (noForce, g)
  else (noForce, g).
Proof.
  unfold calculateRepulsionForce.
  destruct (ParentRef_eq_dec _ _); [| reflexivity].
  unfold zonesOverlap, repulsionZone.
  destruct (aabbOverlap _ _); [| reflexivity].
  fold (centerDistance (getNodeBounds a) (getNodeBounds b)).
  destruct (Req_dec_T _ 0); [reflexivity |].
  unfold zoneMinOverlap, zoneMaxDimension, repulsionZone, centerVecX,
    centerVecY, smoothstep.
  cbv zeta. f_equal. f_equal.
  - f_equal. f_equal. lra.
  - f_equal. f_equal. lra.
Qed.

Lemma centerDistance_zero (a b : Node) :
  centerDistance (getNodeBounds a) (getNodeBounds b) = 0 <->
  centerVecX a b = 0 /\ centerVecY a b = 0.
Proof.
  unfold centerDistance, centerVecX, centerVecY. cbv zeta.
  rewrite sqrt_sum_squares_zero. lra.
Qed.

Lemma centerDistance_sq (a b : Node) :
  centerDistance (getNodeBounds a) (getNodeBounds b)
  * centerDistance (getNodeBounds a) (getNodeBounds b)
  = centerVecX a b * centerVecX a b + centerVecY a b * centerVecY a b.
Proof.
  unfold centerDistance, centerVecX, centerVecY. cbv zeta.
  rewrite sqrt_sqrt by apply sum_squares_nonneg. ring.
Qed.

Lemma zonesOverlap_sym (a b : Node) : zonesOverlap a b = zonesOverlap b a.
Proof.
  unfold zonesOverlap, repulsionZone.
  destruct (adaptivePadding_symmetric_parts a b) as [-> _].
  apply aabbOverlap_sym.
Qed.

Lemma zone_translate (a b : Node) (dx dy : R) :
  zonesOverlap (translate a dx dy) (translate b dx dy) = zonesOverlap a b /\
  zoneMinOverlap (translate a dx dy) (translate b dx dy) = zoneMinOverlap a b
  /\
  centerVecX (translate a dx dy) (translate b dx dy) = centerVecX a b /\
  centerVecY (translate a dx dy) (translate b dx dy) = centerVecY a b.
Proof.
  unfold zonesOverlap, zoneMinOverlap, repulsionZone, centerVecX, centerVecY.
  change (calculateAdaptivePadding (translate a dx dy) (translate b dx dy))
    with (calculateAdaptivePadding a b).
  set (p := calculateAdaptivePadding a b).
  destruct (expandBy_translate a dx dy p) as (A1 & A2 & A3 & A4).
  destruct (expandBy_translate b dx dy p) as (B1 & B2 & B3 & B4).
  split; [apply (aabbOverlap_shift _ _ _ _ dx dy); assumption |].
  split.
  - cbv zeta. rewrite A1, A2, A3, A4, B1, B2, B3, B4.
    f_equal; f_equal; lra.
  - rewrite !translate_bounds. cbn. lra.
Qed.

(** X8: moving both nodes by the same offset does not change the repulsion
    force (nor whether a random number is drawn). *)
Theorem repulsion_translation_invariant (g : Rng) (a b : Node) (dx dy : R) :
  calculateRepulsionForce g (translate a dx dy) (translate b dx dy)
  = calculateRepulsionForce g a b.
Proof.
  rewrite !calculateRepulsionForce_eq.
  change (parentNode (translate a dx dy)) with (parentNode a).
  change (parentNode (translate b dx dy)) with (parentNode b).
  change (zoneMaxDimension (translate a dx dy) (translate b dx dy))
    with (zoneMaxDimension a b).
  destruct (zone_translate a b dx dy) as (-> & -> & -> & ->).
  rewrite centerDistance_translate. reflexivity.
Qed.








Lemma repulsion_off_centre_sqLength (a b : Node) (k : R) (s : R) :
  centersDiffer a b ->
  sqLength (mkForce (- centerVecX a b
                       / centerDistance (getNodeBounds a) (getNodeBounds b)
                     * k)
                    (- centerVecY a b
                       / centerDistance (getNodeBounds a) (getNodeBounds b)
                     * k) s)
  = k * k.
Proof.
  intros Hc. pose proof (centerDistance_pos _ _ Hc) as Hd.
  pose proof (centerDistance_sq a b) as Hsq.
  unfold sqLength. cbn [deltaX deltaY].
  set (D := centerDistance _ _) in *.
  set (vx := centerVecX a b) in *. set (vy := centerVecY a b) in *.
  replace (- vx / D * k * (- vx / D * k) + - vy / D * k * (- vy / D * k))
    with ((vx * vx + vy * vy) / (D * D) * (k * k)) by (field; lra).
  rewrite <- Hsq. field. lra.
Qed.

(** X11: when the zones of two same-parent nodes overlap and their centres
    differ, the delta returned has length 0.8 times the smaller overlap of
    the zones (its square is the square of that). *)
Theorem repulsion_length (g : Rng) (a b : Node) :
  parentNode a = parentNode b ->
  zonesOverlap a b = true ->
  centersDiffer a b ->
  sqLength (fst (calculateRepulsionForce g a b))
  = (zoneMinOverlap a b * 0.8) * (zoneMinOverlap a b * 0.8).
Proof.
  intros Hp Ho Hc. rewrite calculateRepulsionForce_eq, Ho.
  destruct (ParentRef_eq_dec _ _); [| contradiction].
  pose proof (centerDistance_pos _ _ Hc) as Hd.
  destruct (Req_dec_T _ 0); [lra |].
  cbn [fst]. apply repulsion_off_centre_sqLength. exact Hc.
Qed.

Lemma repulsion_length_witness :
  sqLength (fst (calculateRepulsionForce (fun _ => 0) draggedNote otherNote))
  = (zoneMinOverlap draggedNote otherNote * 0.8)
    * (zoneMinOverlap draggedNote otherNote * 0.8).
Proof.
  apply (repulsion_length (fun _ => 0) draggedNote otherNote).
  - reflexivity.
  - apply draggedNote_otherNote_facts.
  - left. destruct draggedNote_otherNote_facts as (_ & Hx & _). lra.
Defined.

(** X12: when the centres coincide inside overlapping zones, the push has
    length 30 and strength 1 whatever number is drawn, and exactly one
    number is drawn. *)
Theorem random_push_length (g : Rng) (a b : Node) :
  parentNode a = parentNode b ->
  zonesOverlap a b = true ->
  centerVecX a b = 0 -> centerVecY a b = 0 ->
  sqLength (fst (calculateRepulsionForce g a b)) = 30 * 30 /\
  strength (fst (calculateRepulsionForce g a b)) = 1 /\
  snd (calculateRepulsionForce g a b) = (fun n => g (S n)).
Proof.
  intros Hp Ho Hx Hy. rewrite repulsion_on_centre by assumption.
  cbn [fst snd strength]. unfold sqLength. cbn [deltaX deltaY].
  split; [| split; reflexivity].
  pose proof (sin2_cos2 (g 0%nat * PI * 2)) as H. unfold Rsqr in H. nra.
Qed.

Lemma random_push_length_witness :
  sqLength (fst (calculateRepulsionForce drawsZeroHalf stackedA stackedB))
  = 30 * 30 /\
  strength (fst (calculateRepulsionForce drawsZeroHalf stackedA stackedB)) = 1
  /\
  snd (calculateRepulsionForce drawsZeroHalf stackedA stackedB)
  = (fun n => drawsZeroHalf (S n)).
Proof.
  apply (random_push_length drawsZeroHalf stackedA stackedB).
  - reflexivity.
  - apply stacked_zonesOverlap.
  - unfold centerVecX, stackedA, stackedB. rewrite !rootNote_bounds. cbn. lra.
  - unfold centerVecY, stackedA, stackedB. rewrite !rootNote_bounds. cbn. lra.
Defined.

Lemma zoneMinOverlap_sym (a b : Node) :
  zoneMinOverlap a b = zoneMinOverlap b a.
Proof.
  unfold zoneMinOverlap, repulsionZone.
  destruct (adaptivePadding_symmetric_parts a b) as [-> _]. cbv zeta.
  f_equal; apply Rmin_comm.
Qed.

(** X13: exchanging the dragged node and the other node reverses the
    force: off centre, the two deltas are opposite and the strengths
    equal. *)
Theorem repulsion_antisymmetric (g : Rng) (a b : Node) :
  parentNode a = parentNode b ->
  zonesOverlap a b = true ->
  centersDiffer a b ->
  deltaX (fst (calculateRepulsionForce g b a))
  = - deltaX (fst (calculateRepulsionForce g a b)) /\
  deltaY (fst (calculateRepulsionForce g b a))
  = - deltaY (fst (calculateRepulsionForce g a b)) /\
  strength (fst (calculateRepulsionForce g b a))
  = strength (fst (calculateRepulsionForce g a b)).
Proof.
  intros Hp Ho Hc.
  pose proof (centerDistance_pos _ _ Hc) as Hd.
  rewrite !calculateRepulsionForce_eq.
  rewrite <- (zonesOverlap_sym a b), Ho.
  destruct (ParentRef_eq_dec (parentNode a) (parentNode b));
    [| contradiction].
  destruct (ParentRef_eq_dec (parentNode b) (parentNode a));
    [| congruence].
  rewrite (centerDistance_sym (getNodeBounds b)).
  destruct (Req_dec_T _ 0); [lra |].
  cbn [fst deltaX deltaY strength].
  rewrite (zoneMinOverlap_sym b a).
  destruct (adaptivePadding_symmetric_parts b a) as [_ ->].
  split; [| split; [| reflexivity]].
  - unfold centerVecX. field. lra.
  - unfold centerVecY. field. lra.
Qed.

Lemma repulsion_antisymmetric_witness :
  deltaX (fst (calculateRepulsionForce (fun _ => 0) otherNote draggedNote))
  = - deltaX (fst (calculateRepulsionForce (fun _ => 0) draggedNote
                                           otherNote)).
Proof.
  apply (repulsion_antisymmetric (fun _ => 0) draggedNote otherNote).
  - reflexivity.
  - apply draggedNote_otherNote_facts.
  - left. destruct draggedNote_otherNote_facts as (_ & Hx & _). lra.
Defined.

(** Under a collision with the adaptive padding, the zones overlap by at
    least the padding on both axes. *)
Lemma collision_zone_overlap (a b : Node) :
  collidesWith a b = true ->
  parentNode a = parentNode b /\
  zonesOverlap a b = true /\
  calculateAdaptivePadding a b <= zoneMinOverlap a b.
Proof.
  unfold collidesWith. intros Hc.
  destruct (ParentRef_eq_dec (parentNode a) (parentNode b)) as [Hp | Hp];
    [| rewrite colliding_other_parent in Hc by exact Hp; discriminate].
  rewrite colliding_same_parent in Hc by exact Hp.
  apply aabbOverlap_true in Hc.
  pose proof (adaptivePadding_bounds a b) as [Hlo _].
  unfold zonesOverlap, zoneMinOverlap, repulsionZone.
  set (p := calculateAdaptivePadding a b) in *.
  cbn [expandBy e_x e_y e_right e_bottom] in *.
  destruct Hc as (H1 & H2 & H3 & H4).
  split; [exact Hp |]. split.
  - apply aabbOverlap_true. cbn [expandBy e_x e_y e_right e_bottom]. lra.
  - cbv zeta. cbn [expandBy e_x e_y e_right e_bottom].
    repeat apply Rmin_glb; lra.
Qed.

(** X14: two nodes whose types name no inherited member and that collide
    under their adaptive padding always get a push of length 16 or more:
    repulsion sets in before the collision does. *)
Theorem collision_implies_push (g : Rng) (a b : Node) :
  plainType (nodeType a) ->
  plainType (nodeType b) ->
  collidesWith a b = true ->
  zonesOverlap a b = true /\
  16 * 16 <= sqLength (fst (calculateRepulsionForce g a b)).
Proof.
  intros _ _ Hc. destruct (collision_zone_overlap a b Hc) as (Hp & Ho & Hm).
  pose proof (adaptivePadding_bounds a b) as [Hlo _].
  split; [exact Ho |].
  rewrite calculateRepulsionForce_eq, Ho.
  destruct (ParentRef_eq_dec _ _); [| contradiction].
  destruct (Req_dec_T _ 0) as [Hz | Hz]; cbn [fst].
  - unfold sqLength. cbn [deltaX deltaY].
    pose proof (sin2_cos2 (g 0%nat * PI * 2)) as H. unfold Rsqr in H. nra.
  - rewrite repulsion_off_centre_sqLength.
    + nra.
    + unfold centersDiffer.
      destruct (Req_dec_T (centerVecX a b) 0) as [Hx | Hx];
        [| left; exact Hx].
      destruct (Req_dec_T (centerVecY a b) 0) as [Hy | Hy];
        [| right; exact Hy].
      exfalso. apply Hz. apply centerDistance_zero. split; assumption.
Qed.

Lemma collision_implies_push_witness :
  zonesOverlap draggedNote otherNote = true /\
  16 * 16 <= sqLength (fst (calculateRepulsionForce (fun _ => 0) draggedNote
                                                    otherNote)).
Proof.
  apply (collision_implies_push (fun _ => 0) draggedNote otherNote).
  - apply plainType_note.
  - apply plainType_note.
  - unfold collidesWith, draggedNote, otherNote.
    rewrite rootNote_padding, colliding_same_parent by reflexivity.
    apply aabbOverlap_true. rewrite !rootNote_bounds. cbn. lra.
Defined.

(** ** More on the placement search *)

Lemma isOtherNode_false (node n : Node) :
  isOtherNode node n = false <-> notAPeer node n.
Proof.
  unfold isOtherNode, notAPeer.
  rewrite !andb_false_iff, !negb_false_iff, !String.eqb_eq.
  destruct (ParentRef_eq_dec (parentNode n) (parentNode node)) as [E | E].
  - split; [intros [[H | H] | H]; auto; discriminate |].
    intros [H | [H | H]]; auto. contradiction.
  - split; [intros _; right; right; exact E |].
    intros _. right. reflexivity.
Qed.

(** X15: the node itself, districts and nodes of other parents, wherever
    they stand in the list, have no influence on the position returned. *)
Theorem findValidPosition_ignores_non_peers (fuel : nat) (node x : Node)
    (before after : list Node) (preferredPosition : Position)
    (district : option District) (padding : R) :
  notAPeer node x ->
  findValidPosition fuel node (before ++ x :: after) preferredPosition
                    district padding
  = findValidPosition fuel node (before ++ after) preferredPosition
                      district padding.
Proof.
  intros Hx. apply isOtherNode_false in Hx.
  unfold findValidPosition.
  rewrite !filter_app. cbn [filter]. rewrite Hx. reflexivity.
Qed.

Lemma findValidPosition_ignores_non_peers_witness :
  findValidPosition 5 (rootNote "n" 0 0)
    ([rootNote "a" 300 0]
     ++ sized200x150 "zoned" 0 0 (PId "zone") :: [rootNote "b" 0 300])
    (mkPosition 0 0) None 50
  = findValidPosition 5 (rootNote "n" 0 0)
      ([rootNote "a" 300 0] ++ [rootNote "b" 0 300])
      (mkPosition 0 0) None 50.
Proof.
  apply (findValidPosition_ignores_non_peers
           5 (rootNote "n" 0 0) (sized200x150 "zoned" 0 0 (PId "zone"))).
  right. right. cbn. discriminate.
Defined.

Lemma findValidPosition_early (fuel : nat) (node : Node)
    (allNodes : list Node) (preferredPosition : Position)
    (district : option District) (padding : R) :
  isWithinDistrictBounds district padding preferredPosition
    (getNodeBounds (withPosition node preferredPosition)) = true ->
  collisionFree node allNodes preferredPosition ->
  findValidPosition fuel node allNodes preferredPosition district padding
  = Some preferredPosition.
Proof.
  intros Hin Hfree. unfold findValidPosition. cbv zeta.
  rewrite Hin. cbn [negb].
  rewrite (proj2 (collidesAny_false _ _) Hfree). reflexivity.
Qed.

(** X16: a preferred position that is inside the district (if any) and free
    of collisions is returned as it is, without any search; and a position
    the search returned, when it is not the fallback, is returned again when
    the search starts from it. *)
Theorem findValidPosition_stable (fuel fuel' : nat) (node : Node)
    (allNodes : list Node) (preferredPosition p : Position)
    (district : option District) (padding : R) :
  (isWithinDistrictBounds district padding preferredPosition
     (getNodeBounds (withPosition node preferredPosition)) = true ->
   collisionFree node allNodes preferredPosition ->
   findValidPosition fuel node allNodes preferredPosition district padding
   = Some preferredPosition)
  /\
  (findValidPosition fuel node allNodes preferredPosition district padding
   = Some p ->
   p <> fallbackPosition district padding preferredPosition
          (getNodeBounds (withPosition node preferredPosition)) ->
   findValidPosition fuel' node allNodes p district padding = Some p).
Proof.
  split; [apply findValidPosition_early |].
  intros Hres Hnot.
  apply findValidPosition_sound in Hres.
  destruct Hres as [[Hin Hfree] | Hfb]; [| contradiction].
  apply findValidPosition_early; assumption.
Qed.

Lemma findValidPosition_stable_witness :
  findValidPosition 0 (rootNote "n" 0 0) [rootNote "n" 0 0; rootNote "b" 400 0]
                    (mkPosition 0 0) None 50
  = Some (mkPosition 0 0).
Proof.
  apply (proj1 (findValidPosition_stable 0 0 (rootNote "n" 0 0)
                  [rootNote "n" 0 0; rootNote "b" 400 0]
                  (mkPosition 0 0) (mkPosition 0 0) None 50)).
  - reflexivity.
  - intros o Ho. cbn in Ho. destruct Ho as [<- | []].
    change (withPosition (rootNote "n" 0 0) (mkPosition 0 0))
      with (rootNote "n" 0 0).
    rewrite rootNote_padding, colliding_same_parent by reflexivity.
    apply aabbOverlap_false. rewrite !rootNote_bounds. cbn. lra.
Defined.

(** A position the loop over radii found is a candidate of a ring whose
    radius is at least the first one and less than [maxRadius]. *)
Lemma spiral_Found_radius (node : Node) (otherNodes : list Node)
    (preferredPosition : Position) (district : option District)
    (padding : R) (nodeBounds : Bounds) (stepSize : R)
    (fuel : nat) (radius : R) (p : Position) :
  0 <= stepSize ->
  spiral node otherNodes preferredPosition district padding nodeBounds
         stepSize fuel radius = Found p ->
  exists r i, radius <= r < maxRadius /\
              p = candidate preferredPosition stepSize r i.
Proof.
  intros Hstep. revert radius.
  induction fuel as [| fuel IH]; intros radius; cbn [spiral];
    destruct (Rlt_dec radius maxRadius) as [Hr | Hr]; try discriminate.
  destruct (probeRing _ _ _ _ _ _ _ radius ringIndices) eqn:Hp.
  - intros [= <-]. apply probeRing_Some in Hp.
    destruct Hp as (_ & i & _ & ->). exists radius, i. split; [lra | reflexivity].
  - intros H. destruct (IH _ H) as (r & i & Hrange & ->).
    exists r, i. split; [lra | reflexivity].
Qed.

Lemma probeRing_first (node : Node) (otherNodes : list Node)
    (preferredPosition : Position) (district : option District)
    (padding : R) (nodeBounds : Bounds) (stepSize radius : R)
    (i : nat) (rest : list nat) :
  validCandidate node otherNodes district padding nodeBounds
    (candidate preferredPosition stepSize radius i) = true ->
  probeRing node otherNodes preferredPosition district padding nodeBounds
            stepSize radius (i :: rest)
  = Some (candidate preferredPosition stepSize radius i).
Proof.
  unfold validCandidate. intros H. apply andb_true_iff in H.
  destruct H as [Hin Hfree]. apply negb_true_iff in Hfree.
  cbn [probeRing]. rewrite Hin, Hfree. reflexivity.
Qed.

Lemma spiral_first_turn (node : Node) (otherNodes : list Node)
    (preferredPosition : Position) (district : option District)
    (padding : R) (nodeBounds : Bounds) (stepSize radius : R)
    (fuel : nat) (p : Position) :
  radius < maxRadius ->
  probeRing node otherNodes preferredPosition district padding nodeBounds
            stepSize radius ringIndices = Some p ->
  spiral node otherNodes preferredPosition district padding nodeBounds
         stepSize (S fuel) radius = Found p.
Proof.
  intros Hr Hp. cbn [spiral].
  destruct (Rlt_dec radius maxRadius); [| contradiction].
  rewrite Hp. reflexivity.
Qed.

(** A note preferring (40, 500) in a district without size, edge padding
    50, no peer: the preferred position is too far left, and the first
    candidate of the first ring (radius 20, angle 0.5) is accepted. *)
Lemma edge_search_example :
  stepSizeOf (rootNote "n" 0 0) = 20 /\
  findValidPosition 1 (rootNote "n" 0 0) [] (mkPosition 40 500)
                    (Some plainDistrict) 50
  = Some (candidate (mkPosition 40 500) 20 20 0).
Proof.
  assert (Hstep : stepSizeOf (rootNote "n" 0 0) = 20).
  { unfold stepSizeOf. rewrite rootNote_bounds. cbn [b_width b_height].
    eval_minmax. lra. }
  split; [exact Hstep |].
  assert (Hw : districtWidth plainDistrict = 1200)
    by (apply districtWidth_default; reflexivity).
  assert (Hh : districtHeight plainDistrict = 1000)
    by (apply districtHeight_default; reflexivity).
  unfold findValidPosition. cbv zeta.
  change (Rmax (b_width (getNodeBounds (withPosition (rootNote "n" 0 0)
                                          (mkPosition 40 500))))
               (b_height (getNodeBounds (withPosition (rootNote "n" 0 0)
                                           (mkPosition 40 500)))) * 0.1)
    with (stepSizeOf (rootNote "n" 0 0)).
  rewrite Hstep.
  change (withPosition (rootNote "n" 0 0) (mkPosition 40 500))
    with (rootNote "n" 40 500).
  rewrite rootNote_bounds.
  set (nb := mkBounds 40 500 200 150 _ _ _ _).
  assert (Hpref : isWithinDistrictBounds (Some plainDistrict) 50
                    (mkPosition 40 500) nb = false).
  { apply not_true_is_false. intros H.
    apply isWithinDistrictBounds_Some in H.
    cbn [pos_x] in H. lra. }
  rewrite Hpref. cbn [negb].
  rewrite (spiral_first_turn _ _ _ _ _ _ _ _ 0
             (candidate (mkPosition 40 500) 20 20 0)); [reflexivity | |].
  - unfold maxRadius. lra.
  - rewrite ringIndices_value.
    change (seq 0 16) with (0%nat :: seq 1 15).
    apply probeRing_first. unfold validCandidate.
    apply andb_true_iff. split; [| reflexivity].
    apply isWithinDistrictBounds_Some. rewrite Hw, Hh.
    unfold candidate. subst nb. cbn [pos_x pos_y b_width b_height INR].
    replace (0 * angleStep + 20 / 20 * 0.5) with 0.5 by lra.
    pose proof PI2_1 as Hpi.
    assert (Hcos : 1 / 2 < cos 0.5).
    { rewrite <- cos_PI3. apply cos_decreasing_1; lra. }
    pose proof (SIN_bound 0.5) as [Hs1 Hs2].
    pose proof (COS_bound 0.5) as [Hc1 Hc2]. lra.
Qed.

(** X17: with a positive step, a position the search returns is the
    preferred position, the fallback, or a position found on the spiral,
    which lies at least one step and less than 2000 away from the preferred
    position. *)
Theorem found_position_distance (fuel : nat) (node : Node)
    (allNodes : list Node) (preferredPosition p : Position)
    (district : option District) (padding : R) :
  0 < stepSizeOf node ->
  findValidPosition fuel node allNodes preferredPosition district padding
  = Some p ->
  p = preferredPosition \/
  p = fallbackPosition district padding preferredPosition
        (getNodeBounds (withPosition node preferredPosition)) \/
  stepSizeOf node * stepSizeOf node <= sqDist p preferredPosition
  < maxRadius * maxRadius.
Proof.
  intros Hstep. unfold findValidPosition. cbv zeta.
  change (Rmax (b_width (getNodeBounds (withPosition node preferredPosition)))
               (b_height (getNodeBounds (withPosition node preferredPosition)))
          * 0.1) with (stepSizeOf node).
  destruct (negb (if negb _ then true else _));
    [intros [= <-]; left; reflexivity |].
  destruct (spiral _ _ _ _ _ _ _ fuel _) eqn:Hs; [| | discriminate].
  - intros [= <-]. right. right.
    apply spiral_Found_radius in Hs; [| lra].
    destruct Hs as (r & i & Hr & ->). rewrite candidate_sqDist.
    unfold maxRadius in *. nra.
  - intros H. right. left. unfold fallbackPosition.
    destruct district; congruence.
Qed.

Lemma found_position_distance_witness :
  candidate (mkPosition 40 500) 20 20 0 = mkPosition 40 500 \/
  candidate (mkPosition 40 500) 20 20 0
  = fallbackPosition (Some plainDistrict) 50 (mkPosition 40 500)
      (getNodeBounds (withPosition (rootNote "n" 0 0) (mkPosition 40 500))) \/
  stepSizeOf (rootNote "n" 0 0) * stepSizeOf (rootNote "n" 0 0)
  <= sqDist (candidate (mkPosition 40 500) 20 20 0) (mkPosition 40 500)
  < maxRadius * maxRadius.
Proof.
  apply (found_position_distance 1 (rootNote "n" 0 0) [] (mkPosition 40 500)
           (candidate (mkPosition 40 500) 20 20 0) (Some plainDistrict) 50).
  - destruct edge_search_example as [-> _]. lra.
  - apply edge_search_example.
Defined.

(** X18: for a node whose type names no inherited member, in a district
    of any size, given or defaulted, every position returned is at least the
    edge padding away from the left and top edges; a position that is not
    the clamped fallback keeps the node inside the padded district; and so
    does the clamped fallback whenever the node fits between the paddings on
    both axes. *)
Theorem result_within_district (fuel : nat) (node : Node)
    (allNodes : list Node) (preferredPosition p : Position) (d : District)
    (padding : R) :
  plainType (nodeType node) ->
  findValidPosition fuel node allNodes preferredPosition (Some d) padding
  = Some p ->
  padding <= pos_x p /\ padding <= pos_y p /\
  (p <> clampToDistrict d padding preferredPosition
          (getNodeBounds (withPosition node preferredPosition))
   \/ (b_width (getNodeBounds node) + 2 * padding <= districtWidth d /\
       b_height (getNodeBounds node) + 2 * padding <= districtHeight d) ->
   pos_x p + b_width (getNodeBounds node) <= districtWidth d - padding /\
   pos_y p + b_height (getNodeBounds node) <= districtHeight d - padding).
Proof.
  intros _ H. apply findValidPosition_sound in H.
  destruct (withPosition_size node preferredPosition) as [Hw Hh].
  destruct H as [[Hin _] | Hfb].
  - apply isWithinDistrictBounds_Some in Hin. rewrite Hw, Hh in Hin.
    destruct Hin as (Hx & Hy & Hr & Hb). repeat split; try assumption.
  - cbn [fallbackPosition] in Hfb.
    split; [rewrite Hfb; apply Rmax_l |].
    split; [rewrite Hfb; apply Rmax_l |].
    intros [Hne | [Hfw Hfh]]; [contradiction |].
    rewrite Hfb. unfold clampToDistrict. cbn [pos_x pos_y].
    rewrite Hw, Hh. split.
    + apply Rplus_le_reg_r with (r := - b_width (getNodeBounds node)).
      ring_simplify. apply Rmax_lub; [lra |].
      etransitivity; [apply Rmin_r | lra].
    + apply Rplus_le_reg_r with (r := - b_height (getNodeBounds node)).
      ring_simplify. apply Rmax_lub; [lra |].
      etransitivity; [apply Rmin_r | lra].
Qed.

(** The witness reaches the clamp: a note (200 x 150) in a district of
    300 x 250, edge padding 50, fits at (50, 50) only; preferring (55, 50)
    it is refused there and on every ring, and the clamp moves it to
    (50, 50), inside the padded district. *)
Lemma result_within_district_witness :
  clampToDistrict (sizedDistrict 300 250) 50 (mkPosition (50 + 5) 50)
    (getNodeBounds (withPosition (rootNote "n" 0 0) (mkPosition (50 + 5) 50)))
  = mkPosition 50 50 /\
  pos_x (mkPosition 50 50) + b_width (getNodeBounds (rootNote "n" 0 0))
  <= districtWidth (sizedDistrict 300 250) - 50 /\
  pos_y (mkPosition 50 50) + b_height (getNodeBounds (rootNote "n" 0 0))
  <= districtHeight (sizedDistrict 300 250) - 50.
Proof.
  assert (HW : districtWidth (sizedDistrict 300 250) = 300).
  { unfold districtWidth, sizedDistrict. cbn [district_style styleWidth
                                               style_width].
    apply orElse_Some. lra. }
  assert (HH : districtHeight (sizedDistrict 300 250) = 250).
  { unfold districtHeight, sizedDistrict. cbn [district_style styleHeight
                                                style_height].
    apply orElse_Some. lra. }
  assert (Hstep : stepSizeOf (rootNote "n" 0 0) = 20).
  { unfold stepSizeOf. rewrite rootNote_bounds. cbn [b_width b_height].
    eval_minmax. lra. }
  destruct (exact_fit_fallback 100 (rootNote "n" 0 0) []
              (sizedDistrict 300 250) 50 5) as [Hrun Hclamp].
  - rewrite Hstep. lra.
  - rewrite HW, rootNote_bounds. cbn [b_width]. lra.
  - rewrite HH, rootNote_bounds. cbn [b_height]. lra.
  - rewrite Hstep. unfold maxRadius. rewrite INR_IZR_INZ. cbn. lra.
  - split; [exact Hclamp |].
    rewrite Hclamp in Hrun.
    apply (result_within_district 100 (rootNote "n" 0 0) []
             (mkPosition (50 + 5) 50) (mkPosition 50 50)
             (sizedDistrict 300 250) 50 plainType_note Hrun).
    right. rewrite HW, HH, rootNote_bounds. cbn [b_width b_height]. lra.
Defined.

(** X19: the loop over radii has no bound of its own.  For a node whose
    resolved width and height are both negative (explicit negative sizes),
    in a district too small for any position to pass the bounds test, the
    search never returns, whatever the fuel. *)
Theorem negative_size_search_diverges (fuel : nat) (node : Node)
    (allNodes : list Node) (preferredPosition : Position) (d : District)
    (padding : R) :
  b_width (getNodeBounds node) < 0 ->
  b_height (getNodeBounds node) < 0 ->
  districtWidth d < b_width (getNodeBounds node) + 2 * padding \/
  districtHeight d < b_height (getNodeBounds node) + 2 * padding ->
  findValidPosition fuel node allNodes preferredPosition (Some d) padding
  = None.
Proof.
  intros Hw Hh Hsmall.
  assert (Hout : forall p,
             isWithinDistrictBounds (Some d) padding p
               (getNodeBounds (withPosition node preferredPosition)) = false).
  { intros p. apply not_true_is_false. intros H.
    apply isWithinDistrictBounds_Some in H.
    destruct (withPosition_size node preferredPosition) as [Ew Eh].
    rewrite Ew, Eh in H. lra. }
  unfold findValidPosition. cbv zeta. rewrite Hout. cbn [negb].
  rewrite spiral_stuck; [reflexivity | | |].
  - intros p. unfold validCandidate. rewrite Hout. reflexivity.
  - destruct (withPosition_size node preferredPosition) as [-> ->].
    apply Rmax_case_strong; lra.
  - destruct (withPosition_size node preferredPosition) as [-> ->].
    unfold maxRadius. apply Rmax_case_strong; lra.
Qed.

Lemma negative_size_search_diverges_witness :
  findValidPosition 1000 (styledNode "n" (-10) (-10) 0 0) []
                    (mkPosition 0 0) (Some (sizedDistrict 50 50)) 50
  = None.
Proof.
  assert (Hb : b_width (getNodeBounds (styledNode "n" (-10) (-10) 0 0)) = -10
               /\ b_height (getNodeBounds (styledNode "n" (-10) (-10) 0 0))
                  = -10).
  { cbn [getNodeBounds b_width b_height].
    unfold resolveWidth, resolveHeight, styledNode. cbn.
    rewrite !orElse_Some by lra. split; reflexivity. }
  destruct Hb as [Hw Hh].
  apply (negative_size_search_diverges
           1000 (styledNode "n" (-10) (-10) 0 0) [] (mkPosition 0 0)
           (sizedDistrict 50 50) 50).
  - rewrite Hw. lra.
  - rewrite Hh. lra.
  - left. rewrite Hw. unfold districtWidth, sizedDistrict. cbn.
    rewrite orElse_Some by lra. lra.
Defined.


(** * Properties of the tagging utilities *)

Lemma includes_In (l : list string) (t : string) :
  includes l t = true <-> In t l.
Proof.
  unfold includes. rewrite existsb_exists. split.
  - intros (u & Hu & E). apply String.eqb_eq in E. subst. exact Hu.
  - intros H. exists t. split; [exact H | apply String.eqb_refl].
Qed.

Lemma includes_not_In (l : list string) (t : string) :
  includes l t = false <-> ~ In t l.
Proof.
  rewrite <- includes_In. destruct (includes l t); split; intros; easy.
Qed.

Lemma filter_twice {A : Type} (f : A -> bool) (l : list A) :
  filter f (filter f l) = filter f l.
Proof.
  induction l as [| x rest IH]; [reflexivity |].
  cbn [filter]. destruct (f x) eqn:E; cbn [filter]; [rewrite E, IH |];
    congruence.
Qed.

Lemma tagsOf_added (n : TagNode) (t : string) :
  tagsOf (addTagToNode n t)
  = if includes (tagsOf n) t then tagsOf n else tagsOf n ++ [t].
Proof.
  unfold addTagToNode. cbv zeta. destruct (includes (tagsOf n) t); reflexivity.
Qed.

Lemma tagsOf_removed (n : TagNode) (t : string) :
  tagsOf (removeTagFromNode n t)
  = filter (fun u => negb (String.eqb u t)) (tagsOf n).
Proof. reflexivity. Qed.

(** X20: after [addTagToNode] the node has the tag and keeps every tag it
    had; adding the same tag again returns the node unchanged; the fields
    other than the tags are carried over. *)
Theorem addTag_idempotent (n : TagNode) (t : string) :
  includes (tagsOf (addTagToNode n t)) t = true /\
  (forall u, In u (tagsOf n) -> In u (tagsOf (addTagToNode n t))) /\
  addTagToNode (addTagToNode n t) t = addTagToNode n t /\
  tn_others (addTagToNode n t) = tn_others n /\
  dataOthers (addTagToNode n t) = dataOthers n.
Proof.
  assert (Hhas : includes (tagsOf (addTagToNode n t)) t = true).
  { rewrite tagsOf_added. destruct (includes (tagsOf n) t) eqn:E;
      [exact E |]. apply includes_In, in_or_app. right. left. reflexivity. }
  split; [exact Hhas |]. split; [| split; [| split]].
  - intros u Hu. rewrite tagsOf_added.
    destruct (includes (tagsOf n) t); [exact Hu |].
    apply in_or_app. left. exact Hu.
  - unfold addTagToNode at 1. cbv zeta. rewrite Hhas. reflexivity.
  - unfold addTagToNode. cbv zeta.
    destruct (includes (tagsOf n) t); reflexivity.
  - unfold addTagToNode. cbv zeta.
    destruct (includes (tagsOf n) t); reflexivity.
Qed.

(** X21: [addTagToNode] never creates a duplicate: a node whose tags are
    pairwise distinct stays so, and gains at most one tag. *)
Theorem addTag_keeps_tags_distinct (n : TagNode) (t : string) :
  NoDup (tagsOf n) ->
  NoDup (tagsOf (addTagToNode n t)) /\
  (List.length (tagsOf (addTagToNode n t))
   <= S (List.length (tagsOf n)))%nat.
Proof.
  intros Hnd. rewrite tagsOf_added.
  destruct (includes (tagsOf n) t) eqn:E.
  - split; [exact Hnd | lia].
  - apply includes_not_In in E. split.
    + apply NoDup_app; [exact Hnd | constructor; [intros [] | constructor] |].
      intros u Hu [<- | []]. contradiction.
    + rewrite length_app. cbn. lia.
Qed.

Lemma addTag_keeps_tags_distinct_witness :
  NoDup (tagsOf (addTagToNode (taggedNode ["home"; "work"]%string) "urgent"))
  /\
  (List.length (tagsOf (addTagToNode (taggedNode ["home"; "work"]%string)
                                     "urgent"))
   <= S (List.length (tagsOf (taggedNode ["home"; "work"]%string))))%nat.
Proof.
  apply (addTag_keeps_tags_distinct (taggedNode ["home"; "work"]%string)
                                    "urgent").
  cbn. repeat constructor; cbn; intuition discriminate.
Defined.

(** X22: after [removeTagFromNode] the node has the tag nowhere, even if it
    had it several times; every other tag is kept, in the same order;
    removing again changes nothing; and the result always has a `data` with
    a `tags` array, even for a node that had none. *)
Theorem removeTag_removes_all (n : TagNode) (t : string) :
  includes (tagsOf (removeTagFromNode n t)) t = false /\
  (forall u, u <> t ->
     filter (String.eqb u) (tagsOf (removeTagFromNode n t))
     = filter (String.eqb u) (tagsOf n)) /\
  removeTagFromNode (removeTagFromNode n t) t = removeTagFromNode n t /\
  (exists ts, tn_data (removeTagFromNode n t)
              = Some (mkTagData (Some ts) (dataOthers n))).
Proof.
  split; [| split; [| split]].
  - apply includes_not_In. rewrite tagsOf_removed. intros H.
    apply filter_In in H. destruct H as [_ H].
    rewrite String.eqb_refl in H. discriminate.
  - intros u Hu. rewrite tagsOf_removed.
    induction (tagsOf n) as [| x rest IH]; [reflexivity |].
    cbn [filter]. destruct (String.eqb x t) eqn:Ext; cbn [negb filter].
    + apply String.eqb_eq in Ext. subst x.
      destruct (String.eqb u t) eqn:Eut;
        [apply String.eqb_eq in Eut; contradiction | exact IH].
    + destruct (String.eqb u x); [f_equal |]; exact IH.
  - unfold removeTagFromNode at 1. cbv zeta. rewrite tagsOf_removed.
    unfold removeTagFromNode. cbv zeta. cbn [tn_others dataOthers tn_data
                                             d_others].
    rewrite filter_twice. reflexivity.
  - eexists. reflexivity.
Qed.

Lemma removeTag_removes_all_witness :
  filter (String.eqb "work")
         (tagsOf (removeTagFromNode
                    (taggedNode ["home"; "work"; "home"]%string) "home"))
  = filter (String.eqb "work")
           (tagsOf (taggedNode ["home"; "work"; "home"]%string)).
Proof.
  apply (removeTag_removes_all (taggedNode ["home"; "work"; "home"]%string)
                               "home").
  discriminate.
Defined.

(** X23: removing a tag that was just added to a node that did not have it
    gives back the tags the node had; it gives back the very node when the
    node had a `tags` array. *)
Theorem addTag_then_removeTag (n : TagNode) (t : string) :
  includes (tagsOf n) t = false ->
  tagsOf (removeTagFromNode (addTagToNode n t) t) = tagsOf n /\
  (forall ts others, tn_data n = Some (mkTagData (Some ts) others) ->
     removeTagFromNode (addTagToNode n t) t = n).
Proof.
  intros Hno.
  assert (Hfilter : filter (fun u => negb (String.eqb u t)) (tagsOf n ++ [t])
                    = tagsOf n).
  { apply includes_not_In in Hno.
    rewrite filter_app. cbn [filter]. rewrite String.eqb_refl. cbn [negb].
    rewrite app_nil_r.
    induction (tagsOf n) as [| x rest IH]; [reflexivity |].
    cbn [filter]. destruct (String.eqb x t) eqn:E.
    - apply String.eqb_eq in E. subst x. exfalso. apply Hno. left. reflexivity.
    - cbn [negb]. f_equal. apply IH. intros H. apply Hno. right. exact H. }
  split.
  - rewrite tagsOf_removed, tagsOf_added, Hno. exact Hfilter.
  - intros ts others Hd.
    unfold removeTagFromNode, addTagToNode. cbv zeta. rewrite Hno.
    cbn [tagsOf tn_data d_tags tn_others dataOthers d_others].
    rewrite Hfilter. destruct n as [fields dat]. cbn in *. subst dat.
    reflexivity.
Qed.

Lemma addTag_then_removeTag_witness :
  tagsOf (removeTagFromNode
            (addTagToNode (taggedNode ["home"]%string) "work") "work")
  = tagsOf (taggedNode ["home"]%string).
Proof.
  apply (addTag_then_removeTag (taggedNode ["home"]%string) "work").
  reflexivity.
Defined.

(** X24: counting by tag after tagging or untagging every node: when the
    tag is added to every node, all of them are counted; when it is removed
    from every node, none is; tagging with one tag does not change the
    count of another; and a count never exceeds the number of nodes. *)
Theorem countNodesByTag_after_tagging (nodes : list TagNode) (t : string) :
  countNodesByTag (map (fun n => addTagToNode n t) nodes) t
  = List.length nodes /\
  countNodesByTag (map (fun n => removeTagFromNode n t) nodes) t = 0%nat /\
  (forall u, u <> t ->
     countNodesByTag (map (fun n => addTagToNode n t) nodes) u
     = countNodesByTag nodes u) /\
  (countNodesByTag nodes t <= List.length nodes)%nat.
Proof.
  unfold countNodesByTag, getNodesByTag.
  split; [| split; [| split]].
  - induction nodes as [| n rest IH]; [reflexivity |].
    cbn [map filter].
    assert (H : includes (tagsOf (addTagToNode n t)) t = true).
    { rewrite tagsOf_added. destruct (includes (tagsOf n) t) eqn:E;
        [exact E |]. apply includes_In, in_or_app. right. left. reflexivity. }
    rewrite H. cbn [List.length]. f_equal. exact IH.
  - induction nodes as [| n rest IH]; [reflexivity |].
    cbn [map filter].
    assert (H : includes (tagsOf (removeTagFromNode n t)) t = false).
    { apply includes_not_In. rewrite tagsOf_removed. intros H.
      apply filter_In in H. destruct H as [_ H].
      rewrite String.eqb_refl in H. discriminate. }
    rewrite H. exact IH.
  - intros u Hu. induction nodes as [| n rest IH]; [reflexivity |].
    cbn [map filter].
    assert (H : includes (tagsOf (addTagToNode n t)) u
                = includes (tagsOf n) u).
    { rewrite tagsOf_added. destruct (includes (tagsOf n) t); [reflexivity |].
      unfold includes. rewrite existsb_app. cbn [existsb].
      destruct (String.eqb u t) eqn:E;
        [apply String.eqb_eq in E; contradiction |].
      rewrite !orb_false_r. reflexivity. }
    rewrite H. destruct (includes (tagsOf n) u); cbn [List.length];
      [f_equal |]; exact IH.
  - apply filter_length_le.
Qed.

Lemma countNodesByTag_after_tagging_witness :
  countNodesByTag
    (map (fun n => addTagToNode n "urgent")
         [bareNode; taggedNode ["home"]%string]) "home"
  = countNodesByTag [bareNode; taggedNode ["home"]%string] "home".
Proof.
  apply (countNodesByTag_after_tagging
           [bareNode; taggedNode ["home"]%string] "urgent").
  discriminate.
Defined.

(** ** All the tags in use *)

Lemma insertSorted_perm (t : string) (l : list string) :
  Permutation (insertSorted t l) (t :: l).
Proof.
  induction l as [| x rest IH]; cbn; [apply Permutation_refl |].
  destruct (String.leb t x); [apply Permutation_refl |].
  apply perm_trans with (x :: t :: rest);
    [apply perm_skip, IH | apply perm_swap].
Qed.

Lemma insertSorted_sorted (t : string) (l : list string) :
  Sorted stringLe l -> Sorted stringLe (insertSorted t l).
Proof.
  induction l as [| x rest IH]; intros Hs; cbn.
  - repeat constructor.
  - destruct (String.leb t x) eqn:E.
    + constructor; [exact Hs | constructor; exact E].
    + inversion Hs as [| ? ? Hrest Hhd]; subst.
      constructor; [apply IH, Hrest |].
      assert (Hxt : stringLe x t).
      { destruct (String.leb_total t x) as [H | H]; [congruence | exact H]. }
      destruct rest as [| y rest']; cbn.
      * constructor. exact Hxt.
      * destruct (String.leb t y); constructor;
          [exact Hxt | inversion Hhd; assumption].
Qed.

Lemma sortStrings_spec (l : list string) :
  Permutation (sortStrings l) l /\ Sorted stringLe (sortStrings l).
Proof.
  induction l as [| x rest [IHp IHs]]; cbn.
  - split; constructor.
  - split.
    + eapply perm_trans; [apply insertSorted_perm | apply perm_skip, IHp].
    + apply insertSorted_sorted, IHs.
Qed.

Lemma setAdd_spec (s : list string) (t : string) :
  (NoDup s -> NoDup (setAdd s t)) /\
  (forall u, In u (setAdd s t) <-> In u s \/ u = t).
Proof.
  unfold setAdd. destruct (includes s t) eqn:E.
  - apply includes_In in E. split; [auto |].
    intros u. split; [auto |]. intros [H | ->]; assumption.
  - apply includes_not_In in E. split.
    + intros Hnd. apply NoDup_app;
        [exact Hnd | constructor; [intros [] | constructor] |].
      intros u Hu [<- | []]. contradiction.
    + intros u. rewrite in_app_iff. cbn. intuition.
Qed.

Lemma fold_setAdd_spec (l s : list string) :
  (NoDup s -> NoDup (fold_left setAdd l s)) /\
  (forall u, In u (fold_left setAdd l s) <-> In u s \/ In u l).
Proof.
  revert s. induction l as [| t rest IH]; intros s; cbn [fold_left].
  - split; [auto |]. intros u. cbn. tauto.
  - destruct (IH (setAdd s t)) as [IHn IHi].
    destruct (setAdd_spec s t) as [Hn Hi]. split.
    + intros Hnd. apply IHn, Hn, Hnd.
    + intros u. rewrite IHi, Hi. cbn. intuition.
Qed.

Lemma tagSet_spec (nodes : list TagNode) (s : list string) :
  (NoDup s ->
   NoDup (fold_left (fun s node => fold_left setAdd (tagsOf node) s)
                    nodes s)) /\
  (forall u,
     In u (fold_left (fun s node => fold_left setAdd (tagsOf node) s)
                     nodes s)
     <-> In u s \/ exists n, In n nodes /\ In u (tagsOf n)).
Proof.
  revert s. induction nodes as [| n rest IH]; intros s; cbn [fold_left].
  - split; [auto |]. intros u. split; [auto |].
    intros [H | (n & [] & _)]. exact H.
  - destruct (IH (fold_left setAdd (tagsOf n) s)) as [IHn IHi].
    destruct (fold_setAdd_spec (tagsOf n) s) as [Hn Hi]. split.
    + intros Hnd. apply IHn, Hn, Hnd.
    + intros u. rewrite IHi, Hi. split.
      * intros [[H | H] | (m & Hm & Hu)]; [left; exact H | |].
        -- right. exists n. split; [left; reflexivity | exact H].
        -- right. exists m. split; [right; exact Hm | exact Hu].
      * intros [H | (m & [<- | Hm] & Hu)]; [left; left; exact H | |].
        -- left. right. exact Hu.
        -- right. exists m. split; assumption.
Qed.

(** X25: [getAllTags] returns the tags in use and nothing else, each one
    once, in ascending order; a tag is in the result exactly when
    [countNodesByTag] counts at least one node for it. *)
Theorem getAllTags_spec (nodes : list TagNode) :
  Sorted stringLe (getAllTags nodes) /\
  NoDup (getAllTags nodes) /\
  (forall u, In u (getAllTags nodes)
             <-> exists n, In n nodes /\ In u (tagsOf n)) /\
  (forall u, In u (getAllTags nodes) <-> (0 < countNodesByTag nodes u)%nat).
Proof.
  unfold getAllTags. cbv zeta.
  set (tagSet := fold_left _ nodes []).
  destruct (sortStrings_spec tagSet) as [Hperm Hsorted].
  destruct (tagSet_spec nodes []) as [Hnd Hin]. fold tagSet in Hnd, Hin.
  assert (Hmem : forall u, In u (sortStrings tagSet)
                           <-> exists n, In n nodes /\ In u (tagsOf n)).
  { intros u. split.
    - intros H. apply (Permutation_in _ Hperm) in H. apply Hin in H.
      destruct H as [[] | H]. exact H.
    - intros H. apply (Permutation_in _ (Permutation_sym Hperm)).
      apply Hin. right. exact H. }
  split; [exact Hsorted |]. split; [| split; [exact Hmem |]].
  - apply (Permutation_NoDup (Permutation_sym Hperm)). apply Hnd. constructor.
  - intros u. rewrite Hmem. unfold countNodesByTag, getNodesByTag.
    split.
    + intros (n & Hn & Hu).
      assert (Hf : In n (filter (fun node => includes (tagsOf node) u) nodes)).
      { apply filter_In. split; [exact Hn | apply includes_In, Hu]. }
      destruct (filter _ nodes); [destruct Hf | cbn; lia].
    + intros Hpos.
      destruct (filter (fun node => includes (tagsOf node) u) nodes)
        as [| n rest] eqn:E; [cbn in Hpos; lia |].
      assert (Hf : In n (filter (fun node => includes (tagsOf node) u) nodes))
        by (rewrite E; left; reflexivity).
      apply filter_In in Hf. destruct Hf as [Hn Hu].
      exists n. split; [exact Hn | apply includes_In, Hu].
Qed.

(** ** The colour of a tag *)

(** X26: [getTagColor] always returns one of the eight colours of the
    palette, whatever the tag (the empty tag included): the index computed
    from the hash is never out of range. *)
Theorem getTagColor_in_palette (tag : string) :
  exists c, getTagColor tag = Some c /\ In c tagColors.
Proof.
  unfold getTagColor.
  set (i := Z.to_nat (Z.abs (tagHash tag) mod Z.of_nat (List.length tagColors))).
  assert (Hi : (i < List.length tagColors)%nat).
  { subst i. cbn [tagColors List.length].
    pose proof (Z.mod_pos_bound (Z.abs (tagHash tag)) 8) as H. lia. }
  destruct (nth_error tagColors i) as [c |] eqn:E.
  - exists c. split; [reflexivity | apply (nth_error_In _ _ E)].
  - apply nth_error_None in E. lia.
Qed.

Example getTagColor_work : getTagColor "work" = Some "#3b82f6"%string.
Proof. reflexivity. Qed.

Example getTagColor_empty : getTagColor "" = Some "#10b981"%string.
Proof. reflexivity. Qed.

(** ** Tag names *)

Example normalizeTagName_sample :
  normalizeTagName "  Hello   World! Foo_Bar " = "hello-world-foo_bar"%string.
Proof. reflexivity. Qed.

Lemma normalChar_facts (c : ascii) :
  isNormalChar c = true ->
  isSpace c = false /\ lowerChar c = c /\ isTagChar c = true.
Proof.
  destruct c as [[] [] [] [] [] [] [] []]; vm_compute; intros H;
    try discriminate H; repeat split.
Qed.

Lemma string_length_list (s : string) :
  String.length s = List.length (list_ascii_of_string s).
Proof. induction s as [| c s IH]; cbn; [reflexivity | f_equal; exact IH]. Qed.

Lemma trimStart_normal (l : list ascii) :
  forallb isNormalChar l = true -> trimStart l = l.
Proof.
  destruct l as [| c rest]; [reflexivity |]. cbn. intros H.
  apply andb_true_iff in H. destruct H as [Hc _].
  apply normalChar_facts in Hc. destruct Hc as (-> & _). reflexivity.
Qed.

Lemma forallb_rev {A : Type} (f : A -> bool) (l : list A) :
  forallb f (rev l) = forallb f l.
Proof.
  induction l as [| x rest IH]; [reflexivity |].
  cbn. rewrite forallb_app, IH. cbn. rewrite andb_true_r. apply andb_comm.
Qed.

Lemma replaceSpaceRuns_normal (inRun : bool) (l : list ascii) :
  forallb isNormalChar l = true -> replaceSpaceRuns inRun l = l.
Proof.
  revert inRun. induction l as [| c rest IH]; intros inRun; cbn;
    [reflexivity |].
  intros H. apply andb_true_iff in H. destruct H as [Hc Hrest].
  apply normalChar_facts in Hc. destruct Hc as (-> & _).
  f_equal. apply IH, Hrest.
Qed.

Lemma filter_all {A : Type} (f : A -> bool) (l : list A) :
  forallb f l = true <-> filter f l = l.
Proof.
  induction l as [| x rest IH]; cbn; [tauto |].
  destruct (f x) eqn:E; cbn.
  - rewrite IH. split; [intros ->; reflexivity | intros [= H]; exact H].
  - split; [discriminate |]. intros H.
    pose proof (filter_length_le f rest) as Hle. rewrite H in Hle.
    cbn in Hle. lia.
Qed.

Lemma forallb_filter_self {A : Type} (f : A -> bool) (l : list A) :
  forallb f (filter f l) = true.
Proof.
  induction l as [| x rest IH]; [reflexivity |].
  cbn. destruct (f x) eqn:E; [cbn; rewrite E |]; exact IH.
Qed.

(** On characters of `[a-z0-9_-]` alone, no step changes anything. *)
Lemma normalizeChars_normal (l : list ascii) :
  forallb isNormalChar l = true -> normalizeChars l = l.
Proof.
  intros H. unfold normalizeChars.
  assert (Hmap : map lowerChar l = l).
  { induction l as [| c rest IH]; [reflexivity |]. cbn in *.
    apply andb_true_iff in H. destruct H as [Hc Hrest].
    apply normalChar_facts in Hc. destruct Hc as (_ & -> & _).
    f_equal. apply IH, Hrest. }
  rewrite Hmap, (trimStart_normal l H). unfold trimEnd.
  rewrite trimStart_normal by (rewrite forallb_rev; exact H).
  rewrite rev_involutive, replaceSpaceRuns_normal by exact H.
  apply filter_all, H.
Qed.

Lemma trimStart_length (l : list ascii) :
  (List.length (trimStart l) <= List.length l)%nat.
Proof.
  induction l as [| c rest IH]; cbn; [lia |].
  destruct (isSpace c); cbn; lia.
Qed.

Lemma replaceSpaceRuns_length (inRun : bool) (l : list ascii) :
  (List.length (replaceSpaceRuns inRun l) <= List.length l)%nat.
Proof.
  revert inRun. induction l as [| c rest IH]; intros inRun; cbn; [lia |].
  destruct (isSpace c); [destruct inRun |]; cbn;
    try (specialize (IH true); lia); specialize (IH false); lia.
Qed.

(** X27: the name [normalizeTagName] returns is made of characters of
    `[a-z0-9_-]` only and is no longer than the input; it is a valid tag
    name exactly when its length is between 2 and 50. *)
Theorem normalizeTagName_valid (tag : string) :
  forallb isNormalChar (list_ascii_of_string (normalizeTagName tag)) = true /\
  (String.length (normalizeTagName tag) <= String.length tag)%nat /\
  (isValidTagName (normalizeTagName tag) = true <->
   (2 <= String.length (normalizeTagName tag) <= 50)%nat).
Proof.
  assert (Hn : forallb isNormalChar
                 (list_ascii_of_string (normalizeTagName tag)) = true).
  { unfold normalizeTagName. rewrite list_ascii_of_string_of_list_ascii.
    apply forallb_filter_self. }
  split; [exact Hn |]. split.
  - rewrite !string_length_list. unfold normalizeTagName.
    rewrite list_ascii_of_string_of_list_ascii. unfold normalizeChars, trimEnd.
    set (l := list_ascii_of_string tag).
    eapply Nat.le_trans; [apply filter_length_le |].
    eapply Nat.le_trans; [apply replaceSpaceRuns_length |].
    rewrite length_rev.
    eapply Nat.le_trans; [apply trimStart_length |].
    rewrite length_rev.
    eapply Nat.le_trans; [apply trimStart_length |].
    rewrite length_map. lia.
  - unfold isValidTagName.
    assert (Ht : forallb isTagChar
                   (list_ascii_of_string (normalizeTagName tag)) = true).
    { rewrite forallb_forall in *. intros c Hc.
      apply normalChar_facts, Hn, Hc. }
    rewrite Ht, !andb_true_iff, Nat.leb_le, Nat.leb_le. tauto.
Qed.

(** X28: [normalizeTagName] is idempotent, and the names it leaves as they
    are are exactly those made of characters of `[a-z0-9_-]` only. *)
Theorem normalizeTagName_idempotent (tag : string) :
  normalizeTagName (normalizeTagName tag) = normalizeTagName tag /\
  (normalizeTagName tag = tag <->
   forallb isNormalChar (list_ascii_of_string tag) = true).
Proof.
  assert (Hfix : forall s, forallb isNormalChar (list_ascii_of_string s) = true
                           -> normalizeTagName s = s).
  { intros s H. unfold normalizeTagName.
    rewrite (normalizeChars_normal _ H). apply string_of_list_ascii_of_string. }
  split.
  - apply Hfix. unfold normalizeTagName.
    rewrite list_ascii_of_string_of_list_ascii. apply forallb_filter_self.
  - split; [| apply Hfix].
    intros H. rewrite <- H. unfold normalizeTagName.
    rewrite list_ascii_of_string_of_list_ascii. apply forallb_filter_self.
Qed.


(** * The spiral returns the nearest ring *)




